(** * TreeOfWork: a shallow embedding of [tree_of_work.h]

    The header defines one class, [TreeOfWork::Work], a node of a task graph.
    Nodes are shared through [std::shared_ptr<Work>]; this development models
    the objects as a heap from addresses to records, a shared pointer as an
    optional address, and every member function as a computation over that
    heap.  A member function call is one atomic step: the interleaving of two
    calls inside one another (a data race in the C++ sense) is outside the
    model.  Blocking in [std::future::get] is kept: a call that blocks hands
    back the rest of its work as a continuation. *)

From stdpp Require Import base numbers option list gmap.

Set Default Proof Using "Type".
Open Scope N_scope.

(** ** Data model *)

(** [enum class State]. *)
Inductive State := Created | Running | Completed | Failed.

(** [enum class Conditional]. *)
Inductive Conditional := OR | AND.

Global Instance State_eq_dec : EqDecision State.
Proof. solve_decision. Defined.

Global Instance Conditional_eq_dec : EqDecision Conditional.
Proof. solve_decision. Defined.

(** The two members of [struct Control].  The constructor binds
    [set_completed] to [done(Completed)] and [set_failed] to [done(Failed)]. *)
Inductive Notify := set_completed | set_failed.

Definition m_control (c : Notify) : State :=
  match c with
  | set_completed => Completed
  | set_failed => Failed
  end.

(** A worker only reaches its node through the [Control] it is handed, so a
    worker function is represented by the notifications it issues, in order. *)
Definition WorkerFunc := list Notify.

Definition addr := positive.

(** [std::shared_ptr<Work>]; [None] is [nullptr]. *)
Definition WorkPtr := option addr.

(** [using WorkerSet = std::vector<std::shared_ptr<Work>>]. *)
Definition WorkerSet := list WorkPtr.

(** [size_t] is taken to be 64 bits wide. *)
Definition SIZE_MODULUS : N := 2 ^ 64.

(** [x++] on a [size_t]. *)
Definition size_incr (x : N) : N := (x + 1) mod SIZE_MODULUS.

(** The data members of [class Work].  [m_promise_done] records whether the
    shared state of the promise holds a value; [m_is_done] records
    [m_is_done.valid()].  Both are replaced together (constructor, [reset]),
    so a valid future always refers to the shared state of the promise. *)
Record Work := mkWork {
  m_state : State;
  m_children : WorkerSet;
  m_worker : WorkerFunc;
  m_promise_done : bool;
  m_is_done : bool;
  m_parent_count : N;
  m_parent_done_count : N;
  m_trigger_condition : Conditional;
}.

Definition with_state (st : State) (w : Work) : Work :=
  mkWork st (m_children w) (m_worker w) (m_promise_done w) (m_is_done w)
         (m_parent_count w) (m_parent_done_count w) (m_trigger_condition w).

Definition with_children (cs : WorkerSet) (w : Work) : Work :=
  mkWork (m_state w) cs (m_worker w) (m_promise_done w) (m_is_done w)
         (m_parent_count w) (m_parent_done_count w) (m_trigger_condition w).

Definition with_promise_done (b : bool) (w : Work) : Work :=
  mkWork (m_state w) (m_children w) (m_worker w) b (m_is_done w)
         (m_parent_count w) (m_parent_done_count w) (m_trigger_condition w).

Definition with_is_done (b : bool) (w : Work) : Work :=
  mkWork (m_state w) (m_children w) (m_worker w) (m_promise_done w) b
         (m_parent_count w) (m_parent_done_count w) (m_trigger_condition w).

Definition with_parent_count (c : N) (w : Work) : Work :=
  mkWork (m_state w) (m_children w) (m_worker w) (m_promise_done w) (m_is_done w)
         c (m_parent_done_count w) (m_trigger_condition w).

Definition with_parent_done_count (c : N) (w : Work) : Work :=
  mkWork (m_state w) (m_children w) (m_worker w) (m_promise_done w) (m_is_done w)
         (m_parent_count w) c (m_trigger_condition w).

Definition with_trigger_condition (c : Conditional) (w : Work) : Work :=
  mkWork (m_state w) (m_children w) (m_worker w) (m_promise_done w) (m_is_done w)
         (m_parent_count w) (m_parent_done_count w) c.

(** The effects of a run that an observer can order: stores to [m_state],
    [m_promise_done.set_value], the [child->trigger] calls of the fan-out and
    the threads started. *)
Inductive Event :=
| EvState (n : addr) (st : State)
| EvSetValue (n : addr)
| EvTrigger (child : addr) (parent_state : State)
| EvSpawn (n : addr).

Global Instance Event_eq_dec : EqDecision Event.
Proof. solve_decision. Defined.

(** The program state: the objects, and the events so far, oldest first. *)
Record Sys := mkSys {
  heap : gmap addr Work;
  trace : list Event;
}.

Definition empty_sys : Sys := mkSys ∅ [].

(** ** Computations *)

(** What a call can come to: it returns; a [std::future_error] escapes it;
    the calling thread blocks in [m_is_done.get()] of node [n] and goes on
    with [k] once that future is ready; it dereferences a pointer that is
    null or not allocated (undefined behaviour); or the recursion bound of
    the model is used up. *)
Inductive Outcome (A : Type) : Type :=
| Ret (a : A) (s : Sys)
| Throw (s : Sys)
| Block (s : Sys) (n : addr) (k : Sys → Outcome A)
| Fault
| NoFuel.

Arguments Ret {A} a s.
Arguments Throw {A} s.
Arguments Block {A} s n k.
Arguments Fault {A}.
Arguments NoFuel {A}.

Definition M (A : Type) : Type := Sys → Outcome A.

Definition ret {A} (a : A) : M A := fun s => Ret a s.

Fixpoint bind_outcome {A B} (o : Outcome A) (f : A → M B) : Outcome B :=
  match o with
  | Ret a s => f a s
  | Throw s => Throw s
  | Block s n k => Block s n (fun s' => bind_outcome (k s') f)
  | Fault => Fault
  | NoFuel => NoFuel
  end.

Definition bind {A B} (m : M A) (f : A → M B) : M B :=
  fun s => bind_outcome (m s) f.

Notation "'do' x <- c1 ; c2" := (bind c1 (fun x => c2))
  (at level 10, x name, c1 at level 100, c2 at level 200).
Notation "c1 >> c2" := (bind c1 (fun _ => c2))
  (at level 100, c2 at level 200, right associativity).

(** Reading and writing the object at an address. *)
Definition load (n : addr) : M Work := fun s =>
  match heap s !! n with
  | Some w => Ret w s
  | None => Fault
  end.

Definition modify (n : addr) (f : Work → Work) : M unit := fun s =>
  match heap s !! n with
  | Some w => Ret tt (mkSys (<[n := f w]> (heap s)) (trace s))
  | None => Fault
  end.

Definition emit (e : Event) : M unit := fun s =>
  Ret tt (mkSys (heap s) (trace s ++ [e])).

(** [p->...] on a shared pointer. *)
Definition deref (p : WorkPtr) : M addr := fun s =>
  match p with
  | Some n => Ret n s
  | None => Fault
  end.

(** A range-based [for] over a vector. *)
Fixpoint for_each {A} (l : list A) (body : A → M unit) : M unit :=
  match l with
  | [] => ret tt
  | x :: l' => body x >> for_each l' body
  end.

(** [m_state = st]. *)
Definition store_state (this : addr) (st : State) : M unit :=
  modify this (with_state st) >> emit (EvState this st).

(** [std::thread t( m_worker, m_control ); t.detach();] *)
Definition spawn (this : addr) : M unit := emit (EvSpawn this).

(** ** The member functions of [Work] *)

(** The constructor's member initialisers. *)
Definition Work_new (f : WorkerFunc) : Work :=
  {| m_state := Created;
     m_children := [];
     m_worker := f;
     m_promise_done := false;
     m_is_done := true;
     m_parent_count := 0;
     m_parent_done_count := 0;
     m_trigger_condition := OR |}.

(** [std::make_shared<Work>( f )]: the object is placed at an unused address. *)
Definition make_shared (f : WorkerFunc) : M addr := fun s =>
  let n := fresh (dom (heap s)) in
  Ret n (mkSys (<[n := Work_new f]> (heap s)) (trace s)).

(** [Work::make_empty_root]. *)
Definition make_empty_root : M addr := make_shared [set_completed].

(** [Work::trigger]. *)
Definition trigger (parent_state : State) (this : addr) : M unit :=
  do w <- load this;
  if decide (m_state w = Created) then
    if decide (parent_state = Completed) then
      (if decide (0 < m_parent_count w)
       then modify this (with_parent_count (m_parent_count w - 1))
       else ret tt) >>
      do w' <- load this;
      let run_now :=
        match m_trigger_condition w' with
        | OR => true
        | AND => bool_decide (m_parent_count w' = 0)
        end in
      if run_now then store_state this Running >> spawn this else ret tt
    else ret tt
  else ret tt.

(** [Work::register_child]. *)
Definition register_child (child : WorkPtr) (this : addr) : M unit :=
  modify this (fun w => with_children (m_children w ++ [child]) w) >>
  modify this (fun w => with_parent_count (size_incr (m_parent_count w)) w) >>
  modify this (fun w => with_parent_done_count (m_parent_count w) w).

(** [Work::set_trigger_condition]. *)
Definition set_trigger_condition (c : Conditional) (this : addr) : M unit :=
  modify this (with_trigger_condition c).

(** The body shared by the two wiring helpers. *)
Definition wire (c : Conditional) (parents children : WorkerSet) : M unit :=
  for_each parents (fun parent =>
    for_each children (fun child =>
      (do ch <- deref child; set_trigger_condition c ch) >>
      (do pa <- deref parent; register_child child pa))).

(** [Work::execute_if_all_finished]. *)
Definition execute_if_all_finished (parents children : WorkerSet) : M unit :=
  wire AND parents children.

(** [Work::execute_if_any_finished]. *)
Definition execute_if_any_finished (parents children : WorkerSet) : M unit :=
  wire OR parents children.

(** The rest of [m_is_done.get()] for a caller that is parked in it: the
    caller entered [get] on a valid future ([wait_for_done] has just tested
    [valid()]) and waits on the shared state; once that is ready it takes
    the value and the future gives up its shared state, so [valid()] is
    false afterwards.  Several callers may be parked in [get] of one future;
    each of them leaves in this way. *)
Definition future_get (this : addr) : M unit :=
  modify this (with_is_done false).

(** [Work::wait_for_done]. *)
Definition wait_for_done (this : addr) : M unit :=
  do w <- load this;
  if m_is_done w && negb (m_promise_done w)
  then fun s => Block s this (future_get this)
  else ret tt.

(** [m_promise_done.set_value( true )]: a second value for the same shared
    state raises [std::future_error] ([promise_already_satisfied]). *)
Definition set_value (this : addr) : M unit :=
  do w <- load this;
  if m_promise_done w then (fun s => Throw s)
  else modify this (with_promise_done true) >> emit (EvSetValue this).

(** [Work::done]. *)
Definition done (result : State) (this : addr) : M unit :=
  store_state this result >>
  set_value this >>
  do w <- load this;
  for_each (m_children w) (fun child =>
    match child with
    | Some c =>
        do me <- load this;
        emit (EvTrigger c (m_state me)) >> trigger (m_state me) c
    | None => ret tt
    end).

(** The body of the loop in [done], for reference in the statements. *)
Definition notify_child (this : addr) (child : WorkPtr) : M unit :=
  match child with
  | Some c =>
      do me <- load this;
      emit (EvTrigger c (m_state me)) >> trigger (m_state me) c
  | None => ret tt
  end.

(** [Work::reset].  The recursion through [m_children] need not end (the
    graph may have a cycle), so the model bounds its depth by [fuel]. *)
Fixpoint reset (fuel : nat) (deep : bool) (this : addr) : M unit :=
  match fuel with
  | O => fun _ => NoFuel
  | S fuel' =>
      do w <- load this;
      (if decide (m_state w = Running) then wait_for_done this else ret tt) >>
      store_state this Created >>
      modify this (fun w => with_is_done true (with_promise_done false w)) >>
      modify this (fun w => with_parent_done_count (m_parent_count w) w) >>
      if deep then
        do w' <- load this;
        for_each (m_children w') (fun child =>
          match child with
          | Some c => reset fuel' deep c
          | None => ret tt
          end)
      else ret tt
  end.

(** A worker thread: the notifications of the worker function, each a call of
    [done] on the node the [Control] belongs to. *)
Definition run_worker (this : addr) : M unit :=
  do w <- load this;
  for_each (m_worker w) (fun c => done (m_control c) this).

(** ** Observing a computation, and some graphs *)

Definition outcome_sys {A} (o : Outcome A) : option Sys :=
  match o with
  | Ret _ s | Throw s | Block s _ _ => Some s
  | Fault | NoFuel => None
  end.

Definition field {A} (f : Work → A) (n : addr) (s : Sys) : option A :=
  f <$> heap s !! n.

Definition main_graph : M (addr * addr * addr * addr) :=
  do W0 <- make_empty_root;
  do W1 <- make_shared [set_completed];
  do W2 <- make_shared [set_completed];
  do W3 <- make_shared [set_completed];
  execute_if_any_finished [Some W0] [Some W1; Some W2] >>
  execute_if_all_finished [Some W1; Some W2] [Some W3] >>
  ret (W0, W1, W2, W3).


(** Three nodes, the third wired under the first two with an [ALL] gate:
    [execute_if_all_finished( {A, B}, {C} )]. *)
Definition two_parents_all : M (addr * addr * addr) :=
  do a <- make_shared [set_completed];
  do b <- make_shared [set_completed];
  do c <- make_shared [set_completed];
  execute_if_all_finished [Some a; Some b] [Some c] >>
  ret (a, b, c).

(** A chain of three nodes wired with [ALL] gates:
    [execute_if_all_finished( {A}, {B} )], then
    [execute_if_all_finished( {B}, {C} )]. *)
Definition chain_all : M (addr * addr * addr) :=
  do a <- make_shared [set_completed];
  do b <- make_shared [set_completed];
  do c <- make_shared [set_completed];
  execute_if_all_finished [Some a] [Some b] >>
  execute_if_all_finished [Some b] [Some c] >>
  ret (a, b, c).

(** One node whose worker calls [set_completed] and then [set_failed],
    triggered as a root. *)
Definition lone_running : M addr :=
  do a <- make_shared [set_completed; set_failed];
  trigger Completed a >>
  ret a.

(** The state a computation leaves when started in [s] ([s] itself if it
    leaves none). *)
Definition after {A} (m : M A) (s : Sys) : Sys :=
  default s (outcome_sys (m s)).

(** ** Threads

    Calls come from any number of threads.  A call that blocks is parked with
    the node it waits for and is woken, in some later state, once the promise
    of that node holds a value.  ([reset] replacing the promise under a parked
    thread is a data race on [m_is_done] and is not given a meaning of its
    own: the thread simply stays parked until the next value.) *)

Inductive Call :=
| CallNew (f : WorkerFunc)
| CallAllFinished (parents children : WorkerSet)
| CallAnyFinished (parents children : WorkerSet)
| CallRegisterChild (child : WorkPtr) (this : addr)
| CallSetTriggerCondition (c : Conditional) (this : addr)
| CallTrigger (parent_state : State) (this : addr)
| CallReset (fuel : nat) (deep : bool) (this : addr)
| CallWaitForDone (this : addr)
| CallControl (c : Notify) (this : addr).

Definition run_call (c : Call) : M unit :=
  match c with
  | CallNew f => make_shared f >> ret tt
  | CallAllFinished ps cs => execute_if_all_finished ps cs
  | CallAnyFinished ps cs => execute_if_any_finished ps cs
  | CallRegisterChild child this => register_child child this
  | CallSetTriggerCondition c this => set_trigger_condition c this
  | CallTrigger ps this => trigger ps this
  | CallReset fuel deep this => reset fuel deep this
  | CallWaitForDone this => wait_for_done this
  | CallControl c this => done (m_control c) this
  end.

Definition Parked : Type := addr * (Sys → Outcome unit).

Record Config := mkConfig {
  sys : Sys;
  parked : list Parked;
}.

Definition init_config : Config := mkConfig empty_sys [].

Definition settle (o : Outcome unit) (ps : list Parked) : option Config :=
  match o with
  | Ret _ s | Throw s => Some (mkConfig s ps)
  | Block s n k => Some (mkConfig s (ps ++ [(n, k)]))
  | Fault | NoFuel => None
  end.

Inductive step : Config → Config → Prop :=
| step_call c cfg cfg' :
    settle (run_call c (sys cfg)) (parked cfg) = Some cfg' →
    step cfg cfg'
| step_wake i n k cfg cfg' :
    parked cfg !! i = Some (n, k) →
    field m_promise_done n (sys cfg) = Some true →
    settle (k (sys cfg)) (delete i (parked cfg)) = Some cfg' →
    step cfg cfg'.

Definition reachable (cfg : Config) : Prop := rtc step init_config cfg.

(** ** Auxiliary notions for the statements *)

(** What [trigger] does to the object it is called on, and whether it starts
    the worker thread. *)
Definition count_down (w : Work) : Work :=
  if decide (0 < m_parent_count w)
  then with_parent_count (m_parent_count w - 1) w else w.

Definition run_now (w : Work) : bool :=
  match m_trigger_condition w with
  | OR => true
  | AND => bool_decide (m_parent_count w = 0)
  end.

(** The completion signal of a node: an invalid future has been through a
    [get], so its promise holds a value; and a promise only holds a value
    after a [set_value]. *)
Definition signal_ok (n : addr) (tr : list Event) (w : Work) : Prop :=
  (m_is_done w = false → m_promise_done w = true) ∧
  (m_promise_done w = true → EvSetValue n ∈ tr).

Definition signal_inv (s : Sys) : Prop :=
  ∀ n w, heap s !! n = Some w → signal_ok n (trace s) w.

(** An invariant, carried through the states a call can come to and through
    the continuations of the calls it leaves parked. *)
Fixpoint holds {A} (I : Sys → Prop) (o : Outcome A) : Prop :=
  match o with
  | Ret _ s | Throw s => I s
  | Block s n k =>
      I s ∧ ∀ s', I s' → field m_promise_done n s' = Some true → holds I (k s')
  | Fault | NoFuel => True
  end.

(** The invariant of a configuration: it holds of the state, and every
    parked call keeps it when woken. *)
Definition parked_inv (I : Sys → Prop) (p : Parked) : Prop :=
  ∀ s', I s' → field m_promise_done p.1 s' = Some true → holds I (p.2 s').

Definition config_inv (I : Sys → Prop) (cfg : Config) : Prop :=
  I (sys cfg) ∧ Forall (parked_inv I) (parked cfg).

(** A root node that has run and finalised: created, triggered, and its
    worker has called [set_completed]. *)
Definition root_completed : Config :=
  mkConfig
    (after (do a <- make_shared [set_completed];
            trigger Completed a >> done (m_control set_completed) a)
           empty_sys)
    [].

(** The same root with two callers parked in [wait_for_done] since before
    its worker finished. *)
Definition two_waiters : Config :=
  mkConfig (sys root_completed)
           [(1%positive, future_get 1%positive);
            (1%positive, future_get 1%positive)].

(** A call parked by [wait_for_done] on a node whose signal is set. *)
Definition can_return (s : Sys) (p : Parked) : Prop :=
  p.2 = future_get p.1 ∧ field m_promise_done p.1 s = Some true.

(** Two nodes, not yet wired. *)
Definition two_nodes : Sys :=
  after (make_shared [set_completed] >> make_shared [set_completed]) empty_sys.

(** The object [reset] leaves behind, before it turns to the children. *)
Definition reset_here (w : Work) : Work :=
  with_parent_done_count (m_parent_count w)
    (with_is_done true (with_promise_done false (with_state Created w))).

(** The children part of [reset( deep )]. *)
Definition reset_children (fuel : nat) (deep : bool) (cs : WorkerSet) : M unit :=
  if deep then
    for_each cs (fun child =>
      match child with
      | Some c => reset fuel deep c
      | None => ret tt
      end)
  else ret tt.

(** The object [done] leaves behind when the promise had no value yet. *)
Definition finalized (result : State) (w : Work) : Work :=
  with_promise_done true (with_state result w).

(** What [trigger] may change in an object: the state and the parent count,
    and nothing at all unless the object was [Created]. *)
Definition trigger_rel (w w' : Work) : Prop :=
  m_children w' = m_children w ∧
  m_worker w' = m_worker w ∧
  m_promise_done w' = m_promise_done w ∧
  m_is_done w' = m_is_done w ∧
  m_parent_done_count w' = m_parent_done_count w ∧
  m_trigger_condition w' = m_trigger_condition w ∧
  (m_state w ≠ Created → w' = w).

(** The events of a fan-out: the [trigger] calls, and for a child that
    becomes eligible the store of [Running] and the thread. *)
Definition fan_event (this : addr) (e : Event) : Prop :=
  match e with
  | EvTrigger _ _ => True
  | EvState c st => st = Running
  | EvSpawn _ => True
  | EvSetValue _ => False
  end.

(** What [register_child( child )] does to the object it is called on. *)
Definition registered (child : WorkPtr) (w : Work) : Work :=
  with_parent_done_count (size_incr (m_parent_count w))
    (with_parent_count (size_incr (m_parent_count w))
       (with_children (m_children w ++ [child]) w)).

(** What one round of the inner loop of a wiring helper, for the pair
    ([parent], [child]), does to the object at address [m]. *)
Definition linked (g : Conditional) (parent child m : addr) (w : Work) : Work :=
  let w1 := if decide (m = child) then with_trigger_condition g w else w in
  if decide (m = parent) then registered (Some child) w1 else w1.

(** What a whole wiring call does to the object at address [m]. *)
Definition wired (g : Conditional) (parents children : list addr)
    (m : addr) (w : Work) : Work :=
  foldl (λ w parent, foldl (λ w child, linked g parent child m w) w children)
        w parents.

(** A vector of pointers none of which is null or dangling. *)
Definition allocated (s : Sys) (l : list addr) : Prop :=
  Forall (λ a, is_Some (heap s !! a)) l.

Global Instance allocated_dec s l : Decision (allocated s l).
Proof. unfold allocated. apply _. Defined.


(** How often a pointer to [c] occurs in a children list. *)
Definition occurrences (c : addr) (cs : WorkerSet) : nat :=
  length (filter (λ p, p = Some c) cs).

(** The [child->trigger] calls to [c] among some events. *)
Definition is_trigger_to (c : addr) (e : Event) : bool :=
  match e with
  | EvTrigger c' _ => bool_decide (c' = c)
  | _ => false
  end.

Definition triggers_to (c : addr) (evs : list Event) : nat :=
  length (filter (λ e, is_trigger_to c e) evs).

(** ** Further notions for the statements *)

(** The worker threads started for [n] among some events. *)
Definition is_spawn_of (n : addr) (e : Event) : bool :=
  match e with
  | EvSpawn n' => bool_decide (n' = n)
  | _ => false
  end.

Definition spawns (n : addr) (evs : list Event) : nat :=
  length (filter (λ e, is_spawn_of n e) evs).

(** A series of [trigger] calls on one node, one per parent state. *)
Definition trigger_each (pss : list State) (this : addr) : M unit :=
  for_each pss (fun ps => trigger ps this).

(** The [Completed] signals in such a series. *)
Fixpoint completed_among (pss : list State) : nat :=
  match pss with
  | [] => O
  | Completed :: pss' => S (completed_among pss')
  | _ :: pss' => completed_among pss'
  end.

(** How often an address occurs in a vector of non-null pointers. *)
Fixpoint count_in (a : addr) (l : list addr) : nat :=
  match l with
  | [] => O
  | x :: l' => ((if decide (x = a) then 1 else 0) + count_in a l')%nat
  end.

(** The [child->trigger( Failed )] calls of a fan-out over a children list:
    one per entry that is not null, in order. *)
Definition failed_calls (cs : WorkerSet) : list Event :=
  omap (λ p : WorkPtr, (λ c, EvTrigger c Failed) <$> p) cs.

(** The edges of the graph: [c] is in the children list of [n]. *)
Definition child_of (s : Sys) (n c : addr) : Prop :=
  ∃ w, heap s !! n = Some w ∧ Some c ∈ m_children w.

(** A node as [reset] leaves it. *)
Definition renewed (w : Work) : Prop :=
  m_state w = Created ∧ m_promise_done w = false ∧ m_is_done w = true.

(** What [reset] calls may have done to an object: nothing, or renewed it;
    the children list, the gate, the worker and the parent count stay. *)
Definition reset_node_rel (w w' : Work) : Prop :=
  m_children w' = m_children w ∧
  m_trigger_condition w' = m_trigger_condition w ∧
  m_worker w' = m_worker w ∧
  m_parent_count w' = m_parent_count w ∧
  (w' = w ∨ renewed w').

Definition reset_rel (s s' : Sys) : Prop :=
  ∀ m, match heap s !! m, heap s' !! m with
       | Some w, Some w' => reset_node_rel w w'
       | None, None => True
       | _, _ => False
       end.

(** No worker is running. *)
Definition calm (s : Sys) : Prop :=
  map_Forall (λ _ w, m_state w ≠ Running) (heap s).

Global Instance calm_dec s : Decision (calm s).
Proof. unfold calm. apply _. Defined.

(** Every child pointer that is not null points to an object. *)
Definition ptr_allocated (s : Sys) (p : WorkPtr) : Prop :=
  match p with
  | Some c => is_Some (heap s !! c)
  | None => True
  end.

Global Instance ptr_allocated_dec s p : Decision (ptr_allocated s p).
Proof. destruct p; simpl; apply _. Defined.

Definition closed (s : Sys) : Prop :=
  map_Forall (λ _ w, Forall (ptr_allocated s) (m_children w)) (heap s).

Global Instance closed_dec s : Decision (closed s).
Proof. unfold closed. apply _. Defined.

(** The graph has no cycle: some rank falls along every edge. *)
Definition ptr_below (rank : addr → nat) (m : addr) (p : WorkPtr) : Prop :=
  match p with
  | Some c => (rank c < rank m)%nat
  | None => True
  end.

Global Instance ptr_below_dec rank m p : Decision (ptr_below rank m p).
Proof. destruct p; simpl; apply _. Defined.

Definition ranked (rank : addr → nat) (s : Sys) : Prop :=
  map_Forall (λ m w, Forall (ptr_below rank m) (m_children w)) (heap s).

Global Instance ranked_dec rank s : Decision (ranked rank s).
Proof. unfold ranked. apply _. Defined.

(** A node that is its own child. *)
Definition self_loop : Sys :=
  after (do a <- make_shared [set_completed]; register_child (Some a) a)
        empty_sys.

(** The life cycle of a node: its promise holds a value exactly when its
    state is terminal, and a worker thread has been started for every node
    that is [Running]. *)
Definition lifecycle_ok (n : addr) (tr : list Event) (w : Work) : Prop :=
  (m_promise_done w = true ↔ m_state w = Completed ∨ m_state w = Failed) ∧
  (m_state w = Running → EvSpawn n ∈ tr).

Definition lifecycle_inv (s : Sys) : Prop :=
  ∀ n w, heap s !! n = Some w → lifecycle_ok n (trace s) w.

(** [reset] from the store of [Created] on. *)
Definition reset_rest (fuel : nat) (deep : bool) (this : addr) : M unit :=
  store_state this Created >>
  modify this (fun w => with_is_done true (with_promise_done false w)) >>
  modify this (fun w => with_parent_done_count (m_parent_count w) w) >>
  if deep then
    do w' <- load this;
    for_each (m_children w') (fun child =>
      match child with
      | Some c => reset fuel deep c
      | None => ret tt
      end)
  else ret tt.


(** [trigger] in the two steps the source takes: the test of [m_state]
    (line 164), and the body of the [if] (lines 166 to 190), which reads and
    writes [m_parent_count] and stores [Running] without looking at
    [m_state] again. *)
Definition trigger_test (this : addr) : M bool :=
  do w <- load this;
  ret (bool_decide (m_state w = Created)).

Definition trigger_act (parent_state : State) (this : addr) : M unit :=
  if decide (parent_state = Completed) then
    do w <- load this;
    (if decide (0 < m_parent_count w)
     then modify this (with_parent_count (m_parent_count w - 1))
     else ret tt) >>
    do w' <- load this;
    let run_now :=
      match m_trigger_condition w' with
      | OR => true
      | AND => bool_decide (m_parent_count w' = 0)
      end in
    if run_now then store_state this Running >> spawn this else ret tt
  else ret tt.

Definition when (b : bool) (m : M unit) : M unit :=
  if b then m else ret tt.

(** Two [trigger] calls that overlap: both tests come before either body. *)
Definition trigger_overlapping (ps1 ps2 : State) (this : addr) : M unit :=
  do b1 <- trigger_test this;
  do b2 <- trigger_test this;
  when b1 (trigger_act ps1 this) >> when b2 (trigger_act ps2 this).

(** ** [main] *)

(** [main] of main.cpp up to and with [W0->trigger()] (lines 37 to 51): no
    thread but that of [main] exists before that call. *)
Definition main_start : M unit :=
  do ws <- main_graph;
  let '(W0, _, _, _) := ws in
  trigger Completed W0.

(** Where the thread of [main] stands from then on: before the first or the
    second [W3->wait_for_done()] (lines 53 and 54), parked in the [get] of
    one of them, or past both. *)
Inductive MainPc := AtWait1 | InGet1 | AtWait2 | InGet2 | AtReturn.

Global Instance MainPc_eq_dec : EqDecision MainPc.
Proof. solve_decision. Defined.

Record World := mkWorld {
  w_sys : Sys;
  w_pc : MainPc;
}.

Definition main_nodes : list addr := [1; 2; 3; 4]%positive.

Definition main_world : World :=
  mkWorld (after main_start empty_sys) AtWait1.

(** The threads that take turns: that of [main], and the worker thread of a
    node. *)
Inductive Turn := MainTurn | WorkerTurn (n : addr).

(** [main] calls [wait_for_done]: the call returns, or parks in [get]. *)
Definition call_wait (W3 : addr) (s : Sys) (parked_pc next_pc : MainPc) :
    option World :=
  match wait_for_done W3 s with
  | Ret _ s' => Some (mkWorld s' next_pc)
  | Block s' _ _ => Some (mkWorld s' parked_pc)
  | _ => None
  end.

(** [main] leaves the [get] it is parked in, which it can once the signal is
    set. *)
Definition leave_get (W3 : addr) (s : Sys) (next_pc : MainPc) : option World :=
  if bool_decide (field m_promise_done W3 s = Some true) then
    match future_get W3 s with
    | Ret _ s' => Some (mkWorld s' next_pc)
    | _ => None
    end
  else None.

Definition main_turn (W3 : addr) (w : World) : option World :=
  match w_pc w with
  | AtWait1 => call_wait W3 (w_sys w) InGet1 AtWait2
  | InGet1 => leave_get W3 (w_sys w) AtWait2
  | AtWait2 => call_wait W3 (w_sys w) InGet2 AtReturn
  | InGet2 => leave_get W3 (w_sys w) AtReturn
  | AtReturn => None
  end.

(** The worker thread of a node runs from the [trigger] call that starts it
    (the node is [Running]) until it has notified; when [main] has returned
    the process is over and no thread takes a turn. *)
Definition worker_turn (n : addr) (w : World) : option World :=
  if bool_decide (w_pc w ≠ AtReturn ∧
                  field m_state n (w_sys w) = Some Running) then
    match run_worker n (w_sys w) with
    | Ret _ s' => Some (mkWorld s' (w_pc w))
    | _ => None
    end
  else None.

Definition turn (t : Turn) (w : World) : option World :=
  match t with
  | MainTurn => main_turn 4%positive w
  | WorkerTurn n => worker_turn n w
  end.

Fixpoint run_turns (ts : list Turn) (w : World) : option World :=
  match ts with
  | [] => Some w
  | t :: ts' =>
      match turn t w with
      | Some w' => run_turns ts' w'
      | None => None
      end
  end.

(** The worlds one turn away, for worlds whose nodes are those of [main]. *)
Definition successors (w : World) : list World :=
  omap (λ t, turn t w) (MainTurn :: (WorkerTurn <$> main_nodes)).

(** What holds of [main] in every world it reaches: the nodes are the four of
    [main]; no worker was started twice; a worker that was started and has
    not notified can take its turn; when [main] has returned, W0 and W3 are
    [Completed] and so is one of W1 and W2; and as long as [main] has not
    returned some thread can take a turn. *)
Definition main_ok (w : World) : Prop :=
  map_Forall (λ n _, n ∈ main_nodes) (heap (w_sys w)) ∧
  Forall (λ n, (spawns n (trace (w_sys w)) ≤ 1)%nat) main_nodes ∧
  Forall (λ n, w_pc w ≠ AtReturn →
               field m_state n (w_sys w) = Some Running →
               is_Some (worker_turn n w)) main_nodes ∧
  (w_pc w = AtReturn →
   field m_state 1%positive (w_sys w) = Some Completed ∧
   field m_state 4%positive (w_sys w) = Some Completed ∧
   (field m_state 2%positive (w_sys w) = Some Completed ∨
    field m_state 3%positive (w_sys w) = Some Completed)) ∧
  (w_pc w ≠ AtReturn → (0 < length (successors w))%nat).

Global Instance main_ok_dec w : Decision (main_ok w).
Proof. unfold main_ok. apply _. Defined.

(** [main_ok] in every world within [fuel] turns of [w], and no turn left
    after that many. *)
Fixpoint explore (fuel : nat) (w : World) : bool :=
  bool_decide (main_ok w) &&
  match fuel with
  | O => match successors w with [] => true | _ => false end
  | S fuel' => forallb (explore fuel') (successors w)
  end.

(** The first two statements of [done] (lines 252 and 253). *)
Definition done_publish (result : State) (this : addr) : M unit :=
  store_state this result >> set_value this.

(** Two workers notify and their calls of [trigger] on a common child
    overlap: each has published and has read its state for the call
    (line 257) before either call is past the test in [trigger]. *)
Definition done_overlapping (a b c : addr) : M unit :=
  done_publish Completed a >>
  done_publish Completed b >>
  do wa <- load a;
  do wb <- load b;
  trigger_overlapping (m_state wa) (m_state wb) c.

(** The workers of [main] with the notifications of W1 and W2 overlapping,
    and then the worker of W3 as often as it was started. *)
Definition main_overlapping : M unit :=
  run_worker 1%positive >>
  done_overlapping 2%positive 3%positive 4%positive >>
  run_worker 4%positive >>
  run_worker 4%positive.


(** * Theorems *)

(** ** Basic facts about the computations *)

Lemma bind_eq {A B} (m : M A) (f : A → M B) s :
  bind m f s = bind_outcome (m s) f.
Proof. reflexivity. Qed.

Lemma load_Some n w s : heap s !! n = Some w → load n s = Ret w s.
Proof. intros H. unfold load. by rewrite H. Qed.

Lemma load_None n s : heap s !! n = None → load n s = Fault.
Proof. intros H. unfold load. by rewrite H. Qed.

Lemma modify_Some n f w s :
  heap s !! n = Some w →
  modify n f s = Ret tt (mkSys (<[n := f w]> (heap s)) (trace s)).
Proof. intros H. unfold modify. by rewrite H. Qed.

Lemma bind_Ret_inv {A B} (m : M A) (f : A → M B) s b s' :
  bind m f s = Ret b s' → ∃ a s1, m s = Ret a s1 ∧ f a s1 = Ret b s'.
Proof.
  rewrite bind_eq. destruct (m s) as [a s1| | | |]; simpl; try discriminate.
  intros H. by exists a, s1.
Qed.

(** Runs the straight-line part of a computation on a store in which the
    object of interest is known. *)
Ltac mrun H :=
  repeat first
    [ rewrite bind_eq
    | progress unfold load, modify, emit, ret, store_state, set_value, spawn
    | progress simpl
    | rewrite H
    | rewrite lookup_insert_eq
    | rewrite insert_insert_eq ].

Lemma sys_eta s : mkSys (heap s) (trace s) = s.
Proof. by destruct s. Qed.

Lemma trigger_not_created ps n w s :
  heap s !! n = Some w → m_state w ≠ Created → trigger ps n s = Ret tt s.
Proof.
  intros Hn Hst. unfold trigger. rewrite bind_eq, (load_Some _ _ _ Hn). simpl.
  by rewrite decide_False.
Qed.

Lemma trigger_not_completed ps n w s :
  heap s !! n = Some w → ps ≠ Completed → trigger ps n s = Ret tt s.
Proof.
  intros Hn Hps. unfold trigger. rewrite bind_eq, (load_Some _ _ _ Hn). simpl.
  destruct (decide (m_state w = Created)); [|done]. by rewrite decide_False.
Qed.

Lemma trigger_unallocated ps n s :
  heap s !! n = None → trigger ps n s = Fault.
Proof.
  intros Hn. unfold trigger. by rewrite bind_eq, (load_None _ _ Hn).
Qed.

Lemma trigger_completed_created n w s :
  heap s !! n = Some w → m_state w = Created →
  trigger Completed n s =
    Ret tt (if run_now (count_down w)
            then mkSys (<[n := with_state Running (count_down w)]> (heap s))
                       (trace s ++ [EvState n Running; EvSpawn n])
            else mkSys (<[n := count_down w]> (heap s)) (trace s)).
Proof.
  intros Hn Hst. unfold trigger. rewrite bind_eq, (load_Some _ _ _ Hn). simpl.
  rewrite !decide_True by done. rewrite bind_eq.
  assert (Hcd : ∃ s1, (if decide (0 < m_parent_count w)
                       then modify n (with_parent_count (m_parent_count w - 1))
                       else ret tt) s = Ret tt s1
                      ∧ heap s1 = <[n := count_down w]> (heap s)
                      ∧ trace s1 = trace s).
  { unfold count_down. destruct (decide (0 < m_parent_count w)).
    - rewrite (modify_Some _ _ _ _ Hn). by eexists.
    - eexists; split; [done|]. simpl. by rewrite insert_id. }
  destruct Hcd as (s1 & -> & Hh & Ht). simpl.
  rewrite bind_eq. unfold load at 1. rewrite Hh, lookup_insert_eq. simpl.
  fold (run_now (count_down w)). destruct (run_now (count_down w)).
  - unfold store_state, spawn, emit, modify. rewrite !bind_eq.
    rewrite Hh, lookup_insert_eq. simpl. rewrite Ht, insert_insert_eq.
    by rewrite <- app_assoc.
  - unfold ret. f_equal. rewrite <- Hh, <- Ht. by destruct s1.
Qed.

Lemma wait_for_done_eq n w s :
  heap s !! n = Some w →
  wait_for_done n s =
    if m_is_done w && negb (m_promise_done w)
    then Block s n (future_get n) else Ret tt s.
Proof.
  intros Hn. unfold wait_for_done. rewrite bind_eq, (load_Some _ _ _ Hn). simpl.
  by destruct (m_is_done w && negb (m_promise_done w)).
Qed.

Lemma reset_eq fuel deep n w s :
  heap s !! n = Some w →
  (m_state w = Running → m_is_done w && negb (m_promise_done w) = false) →
  reset (S fuel) deep n s =
    reset_children fuel deep (m_children w)
      (mkSys (<[n := reset_here w]> (heap s)) (trace s ++ [EvState n Created])).
Proof.
  intros Hn Hrun. simpl. rewrite bind_eq, (load_Some _ _ _ Hn). simpl.
  rewrite bind_eq.
  assert ((if decide (m_state w = Running) then wait_for_done n else ret tt) s
          = Ret tt s) as ->.
  { destruct (decide (m_state w = Running)) as [Hr|]; [|done].
    by rewrite (wait_for_done_eq _ _ _ Hn), (Hrun Hr). }
  simpl. unfold store_state. rewrite !bind_eq, (modify_Some _ _ _ _ Hn). simpl.
  rewrite bind_eq. unfold modify at 1. simpl. rewrite lookup_insert_eq. simpl.
  rewrite bind_eq. unfold modify at 1. simpl. rewrite lookup_insert_eq. simpl.
  rewrite !insert_insert_eq. unfold reset_children.
  destruct deep; [|done].
  rewrite bind_eq. unfold load. simpl. by rewrite lookup_insert_eq.
Qed.

Lemma reset_blocks fuel deep n w s :
  heap s !! n = Some w → m_state w = Running →
  m_is_done w = true → m_promise_done w = false →
  ∃ k, reset (S fuel) deep n s = Block s n k.
Proof.
  intros Hn Hr Hv Hp. simpl. rewrite bind_eq, (load_Some _ _ _ Hn). simpl.
  rewrite bind_eq, decide_True by done.
  rewrite (wait_for_done_eq _ _ _ Hn), Hv, Hp. simpl. by eexists.
Qed.

Lemma for_each_Ret_preserves {A} (P : Sys → Prop) (body : A → M unit) l :
  (∀ x s s', x ∈ l → P s → body x s = Ret tt s' → P s') →
  ∀ s s', P s → for_each l body s = Ret tt s' → P s'.
Proof.
  induction l as [|x l IH]; intros Hbody s s' HP; simpl.
  - unfold ret. by intros [= <-].
  - intros (u & s1 & H1 & H2)%bind_Ret_inv. destruct u.
    eapply IH; [|eapply Hbody; [|exact HP|exact H1]|exact H2].
    + intros y t t' Hy. apply Hbody. by right.
    + by left.
Qed.

Lemma reset_Ret_created fuel : ∀ deep n s s',
  reset fuel deep n s = Ret tt s' →
  field m_state n s' = Some Created ∧
  ∀ m, field m_state m s = Some Created → field m_state m s' = Some Created.
Proof.
  induction fuel as [|fuel IH]; intros deep n s s' Hret; [done|].
  destruct (heap s !! n) as [w|] eqn:Hn.
  2: { simpl in Hret. by rewrite bind_eq, (load_None _ _ Hn) in Hret. }
  destruct (decide (m_state w = Running ∧ m_is_done w && negb (m_promise_done w) = true))
    as [[Hr Hb]|Hnb].
  { apply andb_prop in Hb as [Hv Hp%negb_true_iff].
    destruct (reset_blocks fuel deep n w s Hn Hr Hv Hp) as [k Hk]. congruence. }
  rewrite (reset_eq _ _ _ _ _ Hn) in Hret.
  2: { intros Hr. destruct (m_is_done w && negb (m_promise_done w)); [|done].
       by destruct Hnb. }
  set (s1 := mkSys _ _) in Hret.
  assert (H1 : field m_state n s1 = Some Created ∧
               ∀ m, field m_state m s = Some Created → field m_state m s1 = Some Created).
  { unfold field, s1; simpl. rewrite lookup_insert_eq. split; [done|].
    intros m. destruct (decide (n = m)) as [->|Hne].
    - by rewrite lookup_insert_eq.
    - by rewrite lookup_insert_ne. }
  unfold reset_children in Hret. destruct deep.
  2: { unfold ret in Hret. by injection Hret as <-. }
  assert (Hkeep : ∀ m, field m_state m s1 = Some Created →
                       field m_state m s' = Some Created).
  { intros m Hm. revert Hm Hret.
    apply (for_each_Ret_preserves (λ t, field m_state m t = Some Created)).
    intros [c|] t t' _ Ht Hbody.
    - by apply (IH _ _ _ _ Hbody).
    - unfold ret in Hbody. by injection Hbody as <-. }
  destruct H1 as [H1a H1b]. split; [by apply Hkeep|].
  intros m Hm. by apply Hkeep, H1b.
Qed.

(** ** Construction *)

(** C9: for every worker function, the node the constructor builds (placed by
    [make_shared] at an address not in use before) is in state [Created], has
    an [OR] gate, a parent count of zero and no children; nothing else in the
    program state changes. *)
Theorem constructed_node_initial (f : WorkerFunc) (s : Sys) :
  ∃ n s' w,
    make_shared f s = Ret n s' ∧
    heap s !! n = None ∧
    heap s' !! n = Some w ∧
    m_state w = Created ∧
    m_trigger_condition w = OR ∧
    m_parent_count w = 0 ∧
    m_children w = [] ∧
    m_worker w = f ∧
    trace s' = trace s ∧
    ∀ m, m ≠ n → heap s' !! m = heap s !! m.
Proof.
  exists (fresh (dom (heap s))), (mkSys (<[fresh (dom (heap s)) := Work_new f]> (heap s)) (trace s)),
    (Work_new f).
  split; [done|]. split.
  { apply not_elem_of_dom, is_fresh. }
  simpl. rewrite lookup_insert_eq. repeat (split; [done|]).
  intros m Hm. by rewrite lookup_insert_ne.
Qed.

(** ** The trigger protocol *)

(** C5: on a node whose state is [Running], [Completed] or [Failed], a call of
    [trigger] with any parent state returns with the whole program state as
    it was: state, parent count, gate and children of every node, and no
    event, so no worker is started.  Any [reset] that returns leaves the node
    [Created]; on a node that is not [Running] the plain [reset] does
    return. *)
Theorem trigger_noop_unless_created (ps : State) (n : addr) (w : Work) (s : Sys) :
  heap s !! n = Some w →
  m_state w = Running ∨ m_state w = Completed ∨ m_state w = Failed →
  trigger ps n s = Ret tt s ∧
  (∀ fuel deep s', reset fuel deep n s = Ret tt s' →
                   field m_state n s' = Some Created) ∧
  (m_state w ≠ Running →
   ∀ fuel, ∃ s', reset (S fuel) false n s = Ret tt s' ∧
                 field m_state n s' = Some Created).
Proof.
  intros Hn Hst. split; [|split].
  - apply (trigger_not_created _ _ _ _ Hn). by destruct Hst as [->|[->| ->]].
  - intros fuel deep s' Hret. exact (proj1 (reset_Ret_created _ _ _ _ _ Hret)).
  - intros Hrun fuel. rewrite (reset_eq _ _ _ _ _ Hn) by done.
    eexists. split; [reflexivity|].
    unfold field. simpl. by rewrite lookup_insert_eq.
Qed.

(** ** Finalising a run *)

Lemma done_unfold result this :
  done result this =
    (store_state this result >> set_value this >>
     do w <- load this; for_each (m_children w) (notify_child this)).
Proof. reflexivity. Qed.

Lemma done_fresh r n w s :
  heap s !! n = Some w → m_promise_done w = false →
  done r n s =
    for_each (m_children w) (notify_child n)
      (mkSys (<[n := finalized r w]> (heap s))
             (trace s ++ [EvState n r; EvSetValue n])).
Proof.
  intros Hn Hp. rewrite done_unfold. mrun Hn. rewrite Hp. mrun Hn.
  by rewrite <- app_assoc.
Qed.

Lemma done_satisfied r n w s :
  heap s !! n = Some w → m_promise_done w = true →
  done r n s =
    Throw (mkSys (<[n := with_state r w]> (heap s)) (trace s ++ [EvState n r])).
Proof.
  intros Hn Hp. rewrite done_unfold. mrun Hn. by rewrite Hp.
Qed.

Lemma trigger_rel_refl w : trigger_rel w w.
Proof. by repeat split. Qed.

Lemma trigger_total ps c w s :
  heap s !! c = Some w →
  ∃ w' evs,
    trigger ps c s = Ret tt (mkSys (<[c := w']> (heap s)) (trace s ++ evs)) ∧
    trigger_rel w w' ∧
    (evs = [] ∨ evs = [EvState c Running; EvSpawn c]).
Proof.
  intros Hc.
  assert (Hid : Ret tt s = Ret tt (mkSys (<[c := w]> (heap s)) (trace s ++ []))).
  { rewrite insert_id, app_nil_r by done. by destruct s. }
  destruct (decide (m_state w = Created)) as [Hst|Hst].
  2: { exists w, []. rewrite (trigger_not_created _ _ _ _ Hc Hst).
       eauto using trigger_rel_refl. }
  destruct (decide (ps = Completed)) as [->|Hps].
  2: { exists w, []. rewrite (trigger_not_completed _ _ _ _ Hc Hps).
       eauto using trigger_rel_refl. }
  rewrite (trigger_completed_created _ _ _ Hc Hst).
  assert (Hcd : trigger_rel w (count_down w)).
  { unfold count_down. destruct (decide (0 < m_parent_count w)).
    - by repeat split.
    - apply trigger_rel_refl. }
  destruct (run_now (count_down w)).
  - exists (with_state Running (count_down w)), [EvState c Running; EvSpawn c].
    split; [done|]. split; [|by right].
    destruct Hcd as (?&?&?&?&?&?&?). by repeat split.
  - exists (count_down w), []. rewrite app_nil_r. by eauto.
Qed.

Lemma trigger_rel_trans w1 w2 w3 :
  trigger_rel w1 w2 → trigger_rel w2 w3 → trigger_rel w1 w3.
Proof.
  intros (?&?&?&?&?&?&H12) (?&?&?&?&?&?&H23).
  repeat split; try congruence.
  intros Hst. rewrite <- (H12 Hst). apply H23. by rewrite (H12 Hst).
Qed.

Lemma triggers_to_app c evs1 evs2 :
  triggers_to c (evs1 ++ evs2) = (triggers_to c evs1 + triggers_to c evs2)%nat.
Proof. unfold triggers_to. by rewrite filter_app, length_app. Qed.

Lemma triggers_to_launch c c' :
  triggers_to c [EvState c' Running; EvSpawn c'] = 0%nat.
Proof. reflexivity. Qed.

Lemma triggers_to_call c c' st :
  triggers_to c [EvTrigger c' st] = if decide (c' = c) then 1%nat else 0%nat.
Proof.
  unfold triggers_to. cbn [filter list_filter is_trigger_to].
  destruct (decide (c' = c)) as [->|Hne].
  - by rewrite decide_True by (by apply bool_decide_pack).
  - rewrite decide_False; [done|]. by intros ?%bool_decide_unpack.
Qed.

Lemma occurrences_cons c p cs :
  occurrences c (p :: cs) =
    ((if decide (p = Some c) then 1 else 0) + occurrences c cs)%nat.
Proof.
  unfold occurrences. cbn [filter list_filter].
  by repeat case_decide.
Qed.

Lemma fan_out_spec n w :
  m_state w ≠ Created →
  ∀ cs s,
    heap s !! n = Some w →
    (∀ c, Some c ∈ cs → is_Some (heap s !! c)) →
    ∃ s' evs,
      for_each cs (notify_child n) s = Ret tt s' ∧
      trace s' = trace s ++ evs ∧
      heap s' !! n = Some w ∧
      Forall (fan_event n) evs ∧
      (∀ c, triggers_to c evs = occurrences c cs) ∧
      (∀ m v, heap s !! m = Some v →
              ∃ v', heap s' !! m = Some v' ∧ trigger_rel v v').
Proof.
  intros Hst. induction cs as [|[c|] cs IH]; intros s Hn Halloc.
  - exists s, []. rewrite app_nil_r. repeat split; eauto using trigger_rel_refl.
  - destruct (Halloc c) as [v Hc]; [by left|].
    destruct (trigger_total (m_state w) c v
                (mkSys (heap s) (trace s ++ [EvTrigger c (m_state w)])) Hc)
      as (v' & evs1 & Htr & Hrel & Hevs1).
    simpl in Htr.
    set (s2 := mkSys (<[c := v']> (heap s))
                     ((trace s ++ [EvTrigger c (m_state w)]) ++ evs1)) in *.
    assert (Hn2 : heap s2 !! n = Some w).
    { unfold s2; simpl. destruct (decide (c = n)) as [->|Hne].
      - rewrite lookup_insert_eq. f_equal.
        assert (v = w) as -> by congruence.
        destruct Hrel as (_&_&_&_&_&_&Hsame). by apply Hsame.
      - by rewrite lookup_insert_ne. }
    assert (Hframe : ∀ m u, heap s !! m = Some u →
                            ∃ u', heap s2 !! m = Some u' ∧ trigger_rel u u').
    { intros m u Hm. unfold s2; simpl. destruct (decide (c = m)) as [->|Hne].
      - rewrite lookup_insert_eq. exists v'. split; [done|]. congruence.
      - rewrite lookup_insert_ne by done. eauto using trigger_rel_refl. }
    destruct (IH s2 Hn2) as (s' & evs & Hfor & Htrace & Hn' & Hfan & Hcount & Hfr).
    { intros c' Hc'. destruct (Halloc c') as [u Hu]; [by right|].
      destruct (Hframe _ _ Hu) as (u' & Hu' & _). by exists u'. }
    exists s', ([EvTrigger c (m_state w)] ++ evs1 ++ evs).
    split.
    { simpl. rewrite bind_eq. unfold notify_child. mrun Hn.
      unfold emit in Htr. rewrite Htr. simpl. exact Hfor. }
    split. { rewrite Htrace. unfold s2; simpl. by rewrite <- !app_assoc. }
    split; [done|]. split.
    { apply Forall_app. split; [by repeat constructor|].
      apply Forall_app. split; [|done].
      destruct Hevs1 as [->| ->]; by repeat constructor. }
    split.
    { intros c'. rewrite !triggers_to_app, triggers_to_call, Hcount, occurrences_cons.
      assert (triggers_to c' evs1 = 0%nat) as ->.
      { destruct Hevs1 as [->| ->]; [done|apply triggers_to_launch]. }
      destruct (decide (c = c')) as [->|Hne].
      - by rewrite decide_True.
      - rewrite decide_False; [done|]. congruence. }
    intros m u Hm. destruct (Hframe _ _ Hm) as (u' & Hu' & Hr1).
    destruct (Hfr _ _ Hu') as (u'' & Hu'' & Hr2).
    exists u''. eauto using trigger_rel_trans.
  - destruct (IH s Hn) as (s' & evs & Hfor & Hrest).
    { intros c Hc. apply Halloc. by right. }
    exists s', evs. split; [|done].
    simpl. rewrite bind_eq. simpl. exact Hfor.
Qed.

(** ** Wiring *)

Lemma register_child_eq child p w s :
  heap s !! p = Some w →
  register_child child p s =
    Ret tt (mkSys (<[p := registered child w]> (heap s)) (trace s)).
Proof. intros Hp. unfold register_child. by mrun Hp. Qed.

Lemma link_spec g p c s :
  is_Some (heap s !! p) → is_Some (heap s !! c) →
  ∃ s',
    ((do ch <- deref (Some c); set_trigger_condition g ch) >>
     (do pa <- deref (Some p); register_child (Some c) pa)) s = Ret tt s' ∧
    trace s' = trace s ∧
    ∀ m, heap s' !! m = linked g p c m <$> heap s !! m.
Proof.
  intros [vp Hp] [vc Hc].
  set (h1 := <[c := with_trigger_condition g vc]> (heap s)).
  assert (Hp1 : ∃ v1, h1 !! p = Some v1 ∧
                      v1 = if decide (p = c) then with_trigger_condition g vp else vp).
  { unfold h1. destruct (decide (p = c)) as [->|Hne].
    - rewrite lookup_insert_eq. eexists; split; [done|]. congruence.
    - rewrite lookup_insert_ne by done. by eexists. }
  destruct Hp1 as (v1 & Hp1 & Hv1).
  exists (mkSys (<[p := registered (Some c) v1]> h1) (trace s)).
  split; [|split; [done|]].
  - rewrite bind_eq. unfold deref at 1, set_trigger_condition. mrun Hc.
    fold h1. unfold deref. simpl.
    by rewrite (register_child_eq _ _ v1).
  - intros m. simpl. unfold linked.
    destruct (decide (m = p)) as [->|Hmp].
    + rewrite lookup_insert_eq, Hp. simpl. by rewrite Hv1.
    + rewrite lookup_insert_ne by done. unfold h1.
      destruct (decide (m = c)) as [->|Hmc].
      * by rewrite lookup_insert_eq, Hc.
      * rewrite lookup_insert_ne by done. by destruct (heap s !! m).
Qed.

Lemma allocated_fmap (f : addr → Work → Work) s s' l :
  (∀ m, heap s' !! m = f m <$> heap s !! m) →
  allocated s l → allocated s' l.
Proof.
  intros Hh Hl. eapply Forall_impl; [exact Hl|].
  intros a Ha. simpl. rewrite Hh. by apply fmap_is_Some.
Qed.

Lemma wire_inner_spec g p cs : ∀ s,
  is_Some (heap s !! p) → allocated s cs →
  ∃ s',
    for_each (Some <$> cs) (fun child =>
      (do ch <- deref child; set_trigger_condition g ch) >>
      (do pa <- deref (Some p); register_child child pa)) s = Ret tt s' ∧
    trace s' = trace s ∧
    ∀ m, heap s' !! m =
         (λ w, foldl (λ w child, linked g p child m w) w cs) <$> heap s !! m.
Proof.
  induction cs as [|c cs IH]; intros s Hp Hcs.
  - exists s. split; [done|]. split; [done|].
    intros m. by destruct (heap s !! m).
  - apply Forall_cons in Hcs as [Hc Hcs].
    destruct (link_spec g p c s Hp Hc) as (s1 & H1 & Ht1 & Hh1).
    destruct (IH s1) as (s' & H' & Ht' & Hh').
    { rewrite Hh1. by apply fmap_is_Some. }
    { by apply (allocated_fmap _ _ _ _ Hh1). }
    exists s'. split; [|split; [congruence|]].
    + simpl. rewrite bind_eq, H1. simpl. exact H'.
    + intros m. rewrite Hh', Hh1. by destruct (heap s !! m).
Qed.

Lemma wire_spec g ps cs : ∀ s,
  allocated s ps → allocated s cs →
  ∃ s',
    wire g (Some <$> ps) (Some <$> cs) s = Ret tt s' ∧
    trace s' = trace s ∧
    ∀ m, heap s' !! m = wired g ps cs m <$> heap s !! m.
Proof.
  induction ps as [|p ps IH]; intros s Hps Hcs.
  - exists s. split; [done|]. split; [done|].
    intros m. by destruct (heap s !! m).
  - apply Forall_cons in Hps as [Hp Hps].
    destruct (wire_inner_spec g p cs s Hp Hcs) as (s1 & H1 & Ht1 & Hh1).
    destruct (IH s1) as (s' & H' & Ht' & Hh').
    { by apply (allocated_fmap _ _ _ _ Hh1). }
    { by apply (allocated_fmap _ _ _ _ Hh1). }
    exists s'. split; [|split; [congruence|]].
    + unfold wire in *. simpl. rewrite bind_eq, H1. simpl. exact H'.
    + intros m. rewrite Hh', Hh1. unfold wired. simpl.
      by destruct (heap s !! m).
Qed.

(** The gate a wiring call leaves on a node it names as a child. *)
Lemma linked_gate_set g p c w : m_trigger_condition (linked g p c c w) = g.
Proof.
  unfold linked. destruct (decide (c = c)) as [_|?]; [|done].
  by destruct (decide (c = p)).
Qed.

Lemma linked_gate_keep g p c m w :
  m_trigger_condition w = g → m_trigger_condition (linked g p c m w) = g.
Proof.
  intros Hg. unfold linked.
  destruct (decide (m = c)), (decide (m = p)); simpl; done.
Qed.

Lemma inner_gate_keep g p m cs : ∀ w,
  m_trigger_condition w = g →
  m_trigger_condition (foldl (λ w child, linked g p child m w) w cs) = g.
Proof.
  induction cs as [|c cs IH]; intros w Hg; [done|].
  simpl. by apply IH, linked_gate_keep.
Qed.

Lemma inner_gate_set g p c cs : ∀ w,
  c ∈ cs →
  m_trigger_condition (foldl (λ w child, linked g p child c w) w cs) = g.
Proof.
  induction cs as [|c' cs IH]; intros w Hc; [by apply elem_of_nil in Hc|].
  simpl. apply elem_of_cons in Hc as [->|Hc].
  - apply inner_gate_keep, linked_gate_set.
  - by apply IH.
Qed.

Lemma wired_gate_keep g ps cs m : ∀ w,
  m_trigger_condition w = g → m_trigger_condition (wired g ps cs m w) = g.
Proof.
  unfold wired. induction ps as [|p ps IH]; intros w Hg; [done|].
  simpl. by apply IH, inner_gate_keep.
Qed.

Lemma wired_gate_set g ps cs c w :
  ps ≠ [] → c ∈ cs → m_trigger_condition (wired g ps cs c w) = g.
Proof.
  intros Hps Hc. destruct ps as [|p ps]; [done|].
  unfold wired. simpl. apply (wired_gate_keep g ps cs c).
  by apply inner_gate_set.
Qed.

Lemma wire_twice_gate g1 g2 ps1 cs1 ps2 cs2 c s :
  allocated s ps1 → allocated s cs1 → allocated s ps2 → allocated s cs2 →
  ps1 ≠ [] → c ∈ cs1 → ps2 ≠ [] → c ∈ cs2 →
  ∃ s1 s2,
    wire g1 (Some <$> ps1) (Some <$> cs1) s = Ret tt s1 ∧
    field m_trigger_condition c s1 = Some g1 ∧
    wire g2 (Some <$> ps2) (Some <$> cs2) s1 = Ret tt s2 ∧
    field m_trigger_condition c s2 = Some g2.
Proof.
  intros Hps1 Hcs1 Hps2 Hcs2 Hne1 Hc1 Hne2 Hc2.
  destruct (wire_spec g1 ps1 cs1 s Hps1 Hcs1) as (s1 & H1 & _ & Hh1).
  destruct (wire_spec g2 ps2 cs2 s1) as (s2 & H2 & _ & Hh2).
  { by apply (allocated_fmap _ _ _ _ Hh1). }
  { by apply (allocated_fmap _ _ _ _ Hh1). }
  exists s1, s2. split; [done|].
  assert (is_Some (heap s !! c)) as [w Hw].
  { eapply Forall_forall in Hcs1; [exact Hcs1|done]. }
  unfold field. rewrite Hh2, Hh1, Hw. simpl.
  by rewrite !wired_gate_set.
Qed.

(** C8: when a node is named as a child first by one wiring helper and then
    by the other, its gate after both calls is the one the later call sets:
    [AND] when [execute_if_all_finished] comes last, [OR] when
    [execute_if_any_finished] comes last; the gate the earlier call had set
    is overwritten.  (Both calls return: no pointer is null or dangling.) *)
Theorem last_wiring_call_sets_gate
    (ps1 cs1 ps2 cs2 : list addr) (c : addr) (s : Sys) :
  allocated s ps1 → allocated s cs1 → allocated s ps2 → allocated s cs2 →
  ps1 ≠ [] → c ∈ cs1 → ps2 ≠ [] → c ∈ cs2 →
  (∃ s1 s2,
     execute_if_any_finished (Some <$> ps1) (Some <$> cs1) s = Ret tt s1 ∧
     field m_trigger_condition c s1 = Some OR ∧
     execute_if_all_finished (Some <$> ps2) (Some <$> cs2) s1 = Ret tt s2 ∧
     field m_trigger_condition c s2 = Some AND) ∧
  (∃ s1 s2,
     execute_if_all_finished (Some <$> ps1) (Some <$> cs1) s = Ret tt s1 ∧
     field m_trigger_condition c s1 = Some AND ∧
     execute_if_any_finished (Some <$> ps2) (Some <$> cs2) s1 = Ret tt s2 ∧
     field m_trigger_condition c s2 = Some OR).
Proof.
  intros. unfold execute_if_any_finished, execute_if_all_finished.
  split; by apply wire_twice_gate.
Qed.

(** ** What a finalising call returns *)

Lemma done_returns r n w s :
  r ≠ Created →
  heap s !! n = Some w →
  m_promise_done w = false →
  (∀ c, Some c ∈ m_children w → is_Some (heap s !! c)) →
  ∃ s' evs,
    done r n s = Ret tt s' ∧
    trace s' = trace s ++ [EvState n r; EvSetValue n] ++ evs ∧
    heap s' !! n = Some (finalized r w) ∧
    Forall (fan_event n) evs ∧
    (∀ c, triggers_to c evs = occurrences c (m_children w)) ∧
    (∀ m v, m ≠ n → heap s !! m = Some v →
            ∃ v', heap s' !! m = Some v' ∧ trigger_rel v v').
Proof.
  intros Hr Hn Hp Halloc. rewrite (done_fresh _ _ _ _ Hn Hp).
  set (s0 := mkSys _ _).
  destruct (fan_out_spec n (finalized r w) Hr (m_children w) s0)
    as (s' & evs & Hfor & Htrace & Hn' & Hfan & Hcount & Hframe).
  { unfold s0; simpl. by rewrite lookup_insert_eq. }
  { intros c Hc. unfold s0; simpl. destruct (decide (n = c)) as [->|Hne].
    - rewrite lookup_insert_eq. by eexists.
    - rewrite lookup_insert_ne by done. by apply Halloc. }
  exists s', evs. split; [done|]. split.
  { rewrite Htrace. unfold s0; simpl. by rewrite <- app_assoc. }
  repeat (split; [done|]).
  intros m v Hm Hv. apply Hframe. unfold s0; simpl.
  by rewrite lookup_insert_ne.
Qed.

(** ** Registering one child several times *)

Section registering.
Variable child : WorkPtr.
Variable f : Work → Work.
Hypothesis f_children : ∀ w, m_children (f w) = m_children w ++ [child].
Hypothesis f_count : ∀ w, m_parent_count (f w) = size_incr (m_parent_count w).


End registering.








(** ** Order of the steps of [done] *)

Lemma fan_out_prefix n w cs1 c cs2 s :
  m_state w ≠ Created →
  heap s !! n = Some w →
  (∀ c', Some c' ∈ cs1 ++ Some c :: cs2 → is_Some (heap s !! c')) →
  ∃ s_mid evs1,
    for_each cs1 (notify_child n) s = Ret tt s_mid ∧
    for_each (cs1 ++ Some c :: cs2) (notify_child n) s =
      (notify_child n (Some c) >> for_each cs2 (notify_child n)) s_mid ∧
    heap s_mid !! n = Some w ∧
    trace s_mid = trace s ++ evs1.
Proof.
  intros Hst. revert s. induction cs1 as [|p cs1 IH]; intros s Hn Halloc.
  - exists s, []. by rewrite app_nil_r.
  - destruct (fan_out_spec n w Hst [p] s Hn)
      as (s1 & evs & Hp & Ht1 & Hn1 & _ & _ & Hframe).
    { intros c' Hc'. apply Halloc. apply list_elem_of_singleton in Hc'.
      rewrite Hc'. by left. }
    assert (Hbody : notify_child n p s = Ret tt s1).
    { simpl in Hp. rewrite bind_eq in Hp.
      destruct (notify_child n p s) as [[] s0| | | |]; simpl in Hp; done. }
    destruct (IH s1 Hn1) as (s_mid & evs1 & Hpre & Hall & Hmid & Ht).
    { intros c' Hc'. destruct (Halloc c') as [u Hu]; [by right|].
      destruct (Hframe _ _ Hu) as (u' & Hu' & _). by exists u'. }
    exists s_mid, (evs ++ evs1). split; [|split; [|split]].
    + cbn [for_each]. by rewrite bind_eq, Hbody.
    + cbn [app for_each]. by rewrite bind_eq, Hbody.
    + done.
    + by rewrite Ht, Ht1, <- app_assoc.
Qed.

(** C6: when [done] finalises a node (the promise has no value yet), the
    events of the call are, in this order, the store of the terminal state,
    [set_value] on the promise, and then the events of the fan-out, in which
    each child is triggered once per entry.  At the moment any child is
    triggered, the node's own state is already the terminal one and its
    promise already holds the value. *)
Theorem fan_out_follows_publication (x : Notify) (n : addr) (w : Work) (s : Sys) :
  heap s !! n = Some w →
  m_promise_done w = false →
  (∀ c, Some c ∈ m_children w → is_Some (heap s !! c)) →
  ∃ s' evs,
    done (m_control x) n s = Ret tt s' ∧
    trace s' = trace s ++ [EvState n (m_control x); EvSetValue n] ++ evs ∧
    Forall (fan_event n) evs ∧
    (∀ c, triggers_to c evs = occurrences c (m_children w)) ∧
    ∀ cs1 c cs2,
      m_children w = cs1 ++ Some c :: cs2 →
      ∃ s_mid evs1,
        done (m_control x) n s =
          (notify_child n (Some c) >> for_each cs2 (notify_child n)) s_mid ∧
        field m_state n s_mid = Some (m_control x) ∧
        field m_promise_done n s_mid = Some true ∧
        trace s_mid =
          trace s ++ [EvState n (m_control x); EvSetValue n] ++ evs1.
Proof.
  intros Hn Hp Halloc.
  assert (Hr : m_control x ≠ Created) by (by destruct x).
  destruct (done_returns _ _ _ _ Hr Hn Hp Halloc)
    as (s' & evs & Hdone & Htrace & _ & Hfan & Hcount & _).
  exists s', evs. repeat (split; [done|]).
  intros cs1 c cs2 Hsplit.
  rewrite (done_fresh _ _ _ _ Hn Hp). set (s0 := mkSys _ _).
  destruct (fan_out_prefix n (finalized (m_control x) w) cs1 c cs2 s0)
    as (s_mid & evs1 & _ & Hall & Hmid & Ht); [done| | |].
  { unfold s0; simpl. by rewrite lookup_insert_eq. }
  { intros c' Hc'. rewrite <- Hsplit in Hc'. unfold s0; simpl.
    destruct (decide (n = c')) as [->|Hne].
    - rewrite lookup_insert_eq. by eexists.
    - rewrite lookup_insert_ne by done. by apply Halloc. }
  exists s_mid, evs1. rewrite Hsplit. split; [done|].
  unfold field. rewrite Hmid. simpl. repeat (split; [done|]).
  rewrite Ht. unfold s0; simpl. by rewrite <- app_assoc.
Qed.

(** ** Finalising twice *)

(** C4 (as the code has it): in a run that starts with a fresh promise, the
    first of two finalising calls returns with the terminal state recorded
    and the promise set.  The second call, with either notification, stores
    its own terminal state over the first and then fails in [set_value] with
    [std::future_error]: the promise, the children list, every other object
    stay as they were and no child is triggered again. *)
Theorem second_finalize_overwrites_state_and_throws
    (x1 x2 : Notify) (n : addr) (w : Work) (s : Sys) :
  heap s !! n = Some w →
  m_promise_done w = false →
  (∀ c, Some c ∈ m_children w → is_Some (heap s !! c)) →
  ∃ s1 w1,
    done (m_control x1) n s = Ret tt s1 ∧
    heap s1 !! n = Some w1 ∧
    m_state w1 = m_control x1 ∧
    m_promise_done w1 = true ∧
    done (m_control x2) n s1 =
      Throw (mkSys (<[n := with_state (m_control x2) w1]> (heap s1))
                   (trace s1 ++ [EvState n (m_control x2)])).
Proof.
  intros Hn Hp Halloc.
  assert (Hr : m_control x1 ≠ Created) by (by destruct x1).
  destruct (done_returns _ _ _ _ Hr Hn Hp Halloc)
    as (s1 & evs & Hdone & _ & Hn1 & _).
  exists s1, (finalized (m_control x1) w). repeat (split; [done|]).
  by apply done_satisfied.
Qed.

(** ** A failed parent *)

(** C2 (as the code has it): on a [Created] node, [trigger] with parent state
    [Failed] returns with the whole program state unchanged: the parent count
    is not decremented, the state, gate and children stay, and no worker is
    started.  The failed parent is not consumed for counting. *)
Theorem failed_parent_signal_changes_nothing (n : addr) (w : Work) (s : Sys) :
  heap s !! n = Some w →
  m_state w = Created →
  trigger Failed n s = Ret tt s.
Proof. intros Hn _. by apply (trigger_not_completed _ _ _ _ Hn). Qed.

(** C2, counterexample: in the chain A -> B -> C wired with
    [execute_if_all_finished], B is [Created], has an [AND] gate and a parent
    count of 1; [trigger( Failed )] on B leaves that count at 1. *)
Lemma failed_parent_signal_not_counted :
  ∃ s s',
    chain_all empty_sys = Ret (1, 2, 3)%positive s ∧
    field m_state 2%positive s = Some Created ∧
    field m_trigger_condition 2%positive s = Some AND ∧
    field m_parent_count 2%positive s = Some 1 ∧
    trigger Failed 2%positive s = Ret tt s' ∧
    field m_parent_count 2%positive s' = Some 1 ∧
    field m_parent_count 2%positive s' ≠ Some 0.
Proof.
  exists (after chain_all empty_sys), (after chain_all empty_sys).
  repeat split; by vm_compute.
Qed.

(** ** The ALL gate *)

(** C1, the code at the failing input: after
    [execute_if_all_finished( {A, B}, {C} )] the parent count of C is 0 and
    those of A and B are 1 ([register_child] counts on the parent).  When A
    alone is triggered and its worker calls [set_completed], C goes to
    [Running] and its worker thread is started, while B is still [Created]. *)
Theorem all_gate_child_runs_after_first_parent :
  ∃ s1 s2,
    two_parents_all empty_sys = Ret (1, 2, 3)%positive s1 ∧
    field m_trigger_condition 3%positive s1 = Some AND ∧
    field m_parent_count 3%positive s1 = Some 0 ∧
    field m_parent_count 1%positive s1 = Some 1 ∧
    field m_parent_count 2%positive s1 = Some 1 ∧
    (trigger Completed 1%positive >> run_worker 1%positive) s1 = Ret tt s2 ∧
    field m_state 2%positive s2 = Some Created ∧
    field m_state 3%positive s2 = Some Running ∧
    trace s2 = [EvState 1 Running; EvSpawn 1; EvState 1 Completed;
                EvSetValue 1; EvTrigger 3 Completed; EvState 3 Running;
                EvSpawn 3]%positive.
Proof.
  exists (after two_parents_all empty_sys),
    (after (trigger Completed 1%positive >> run_worker 1%positive)
           (after two_parents_all empty_sys)).
  repeat split; by vm_compute.
Qed.

(** ** Reset *)

(** C3, the code at the failing input: in the chain A -> B -> C wired with
    [execute_if_all_finished], B is wired with [m_parent_count] 1.  After one
    run of the chain that count is 0.  [reset] on B (which is [Completed])
    returns with B [Created], a promise without value and a valid future, but
    [m_parent_count], the counter [trigger] decrements and compares with 0,
    is still 0, and [m_parent_done_count] has been overwritten with it. *)
Theorem reset_does_not_restore_parent_count :
  ∃ s1 s2 s3,
    chain_all empty_sys = Ret (1, 2, 3)%positive s1 ∧
    field m_parent_count 2%positive s1 = Some 1 ∧
    (trigger Completed 1%positive >> run_worker 1%positive >>
     run_worker 2%positive) s1 = Ret tt s2 ∧
    field m_state 2%positive s2 = Some Completed ∧
    field m_parent_count 2%positive s2 = Some 0 ∧
    reset 1 false 2%positive s2 = Ret tt s3 ∧
    field m_state 2%positive s3 = Some Created ∧
    field m_promise_done 2%positive s3 = Some false ∧
    field m_is_done 2%positive s3 = Some true ∧
    field m_parent_count 2%positive s3 = Some 0 ∧
    field m_parent_done_count 2%positive s3 = Some 0.
Proof.
  set (s1 := after chain_all empty_sys).
  set (s2 := after (trigger Completed 1%positive >> run_worker 1%positive >>
                    run_worker 2%positive) s1).
  exists s1, s2, (after (reset 1 false 2%positive) s2).
  repeat split; by vm_compute.
Qed.

(** C4, counterexample: a node whose worker calls [set_completed] and then
    [set_failed].  After the first call the state is [Completed]; the second
    call is not a no-op: it does not return but throws, and it leaves the
    state [Failed]. *)
Lemma second_finalize_is_not_a_noop :
  ∃ s0 s1 s2,
    lone_running empty_sys = Ret 1%positive s0 ∧
    done (m_control set_completed) 1%positive s0 = Ret tt s1 ∧
    field m_state 1%positive s1 = Some Completed ∧
    done (m_control set_failed) 1%positive s1 = Throw s2 ∧
    done (m_control set_failed) 1%positive s1 ≠ Ret tt s1 ∧
    field m_state 1%positive s2 = Some Failed ∧
    run_worker 1%positive s0 = Throw s2.
Proof.
  set (s0 := after lone_running empty_sys).
  set (s1 := after (done Completed 1%positive) s0).
  exists s0, s1, (after (done Failed 1%positive) s1).
  repeat split; by vm_compute.
Qed.

(** ** The completion signal *)

Section invariant.
Variable I : Sys → Prop.

Lemma holds_bind {A B} (o : Outcome A) (f : A → M B) :
  holds I o → (∀ a s, I s → holds I (f a s)) → holds I (bind_outcome o f).
Proof.
  intros Ho Hf. induction o as [a s|s|s n k IH| |]; simpl in *; auto.
  destruct Ho as [Hs Hk]. split; [done|]. intros s' Hs' Hn. by apply IH, Hk.
Qed.

Lemma holds_for_each {A} (body : A → M unit) l :
  (∀ x s, I s → holds I (body x s)) →
  ∀ s, I s → holds I (for_each l body s).
Proof.
  intros Hbody. induction l as [|x l IH]; intros s Hs; [done|].
  simpl. rewrite bind_eq. apply holds_bind; [by apply Hbody|].
  intros _ s'. apply IH.
Qed.

Lemma holds_load n s : I s → holds I (load n s).
Proof. intros Hs. unfold load. by destruct (heap s !! n). Qed.
End invariant.

Lemma signal_ok_mono n tr e w : signal_ok n tr w → signal_ok n (tr ++ [e]) w.
Proof.
  intros [H1 H2]. split; [done|]. intros Hp. apply elem_of_app. left. by apply H2.
Qed.

Lemma signal_inv_emit e s : signal_inv s → holds signal_inv (emit e s).
Proof. intros Hs n w Hn. simpl in *. by apply signal_ok_mono, Hs. Qed.

Lemma signal_inv_modify n f s :
  signal_inv s →
  (∀ w, heap s !! n = Some w → signal_ok n (trace s) w →
        signal_ok n (trace s) (f w)) →
  holds signal_inv (modify n f s).
Proof.
  intros Hs Hf. unfold modify. destruct (heap s !! n) as [w|] eqn:Hn; [|done].
  intros m v. simpl. destruct (decide (n = m)) as [->|Hne].
  - rewrite lookup_insert_eq. intros [= <-]. by apply Hf, Hs.
  - rewrite lookup_insert_ne by done. apply Hs.
Qed.

(** A change of fields other than the promise and the future. *)
Lemma signal_inv_modify_other n f s :
  signal_inv s →
  (∀ w, m_promise_done (f w) = m_promise_done w ∧ m_is_done (f w) = m_is_done w) →
  holds signal_inv (modify n f s).
Proof.
  intros Hs Hf. apply signal_inv_modify; [done|].
  intros w _ [H1 H2]. destruct (Hf w) as [Hp Hd].
  unfold signal_ok. rewrite Hp, Hd. by split.
Qed.

Lemma signal_inv_store_state n st s :
  signal_inv s → holds signal_inv (store_state n st s).
Proof.
  intros Hs. unfold store_state. rewrite bind_eq. apply holds_bind.
  - by apply signal_inv_modify_other.
  - intros _ s'. apply signal_inv_emit.
Qed.

Lemma signal_inv_trigger ps n s :
  signal_inv s → holds signal_inv (trigger ps n s).
Proof.
  intros Hs. unfold trigger. rewrite bind_eq.
  apply holds_bind; [by apply holds_load|]. intros w s1 Hs1.
  destruct (decide (m_state w = Created)); [|done].
  destruct (decide (ps = Completed)); [|done].
  rewrite bind_eq. apply holds_bind.
  { destruct (decide (0 < m_parent_count w)); [|done].
    by apply signal_inv_modify_other. }
  intros _ s2 Hs2. rewrite bind_eq.
  apply holds_bind; [by apply holds_load|]. intros w' s3 Hs3.
  destruct (match m_trigger_condition w' with
            | OR => true | AND => bool_decide (m_parent_count w' = 0) end);
    [|done].
  rewrite bind_eq. apply holds_bind; [by apply signal_inv_store_state|].
  intros _ s4. apply signal_inv_emit.
Qed.

Lemma signal_inv_register_child child n s :
  signal_inv s → holds signal_inv (register_child child n s).
Proof.
  intros Hs. unfold register_child. rewrite bind_eq.
  apply holds_bind; [by apply signal_inv_modify_other|]. intros _ s1 Hs1.
  rewrite bind_eq.
  apply holds_bind; [by apply signal_inv_modify_other|]. intros _ s2 Hs2.
  by apply signal_inv_modify_other.
Qed.

Lemma signal_inv_wire g ps cs s :
  signal_inv s → holds signal_inv (wire g ps cs s).
Proof.
  revert s. unfold wire. apply holds_for_each. intros p.
  apply holds_for_each. intros c s Hs. rewrite bind_eq.
  apply holds_bind.
  - rewrite bind_eq. destruct c as [c|]; [|done]. simpl.
    by apply signal_inv_modify_other.
  - intros _ s1 Hs1. rewrite bind_eq. destruct p as [p|]; [|done]. simpl.
    by apply signal_inv_register_child.
Qed.

Lemma signal_inv_make_shared f s :
  signal_inv s → holds signal_inv (make_shared f s).
Proof.
  intros Hs n w. simpl. destruct (decide (fresh (dom (heap s)) = n)) as [->|Hne].
  - rewrite lookup_insert_eq. intros [= <-]. by split.
  - rewrite lookup_insert_ne by done. apply Hs.
Qed.

Lemma signal_inv_future_get n s :
  signal_inv s → field m_promise_done n s = Some true →
  holds signal_inv (future_get n s).
Proof.
  intros Hs Hp. unfold future_get.
  apply signal_inv_modify; [done|].
  intros w' Hn' [_ H2]. unfold field in Hp. rewrite Hn' in Hp. simpl in Hp.
  injection Hp as Hp. by split.
Qed.

Lemma signal_inv_wait_for_done n s :
  signal_inv s → holds signal_inv (wait_for_done n s).
Proof.
  intros Hs. unfold wait_for_done. rewrite bind_eq.
  apply holds_bind; [by apply holds_load|]. intros w s1 Hs1.
  destruct (m_is_done w && negb (m_promise_done w)); [|done].
  split; [done|]. intros s'. apply signal_inv_future_get.
Qed.

Lemma signal_inv_set_value n s :
  signal_inv s → holds signal_inv (set_value n s).
Proof.
  intros Hs. unfold set_value. rewrite bind_eq. unfold load.
  destruct (heap s !! n) as [w|] eqn:Hn; [|done]. simpl.
  destruct (m_promise_done w) eqn:Hp; [done|].
  mrun Hn. intros m v. simpl. destruct (decide (n = m)) as [->|Hne].
  - rewrite lookup_insert_eq. intros [= <-]. split.
    + done.
    + intros _. apply elem_of_app. right. by left.
  - rewrite lookup_insert_ne by done. intros Hm.
    by apply signal_ok_mono, Hs.
Qed.

Lemma signal_inv_done r n s :
  signal_inv s → holds signal_inv (done r n s).
Proof.
  intros Hs. rewrite done_unfold, bind_eq.
  apply holds_bind; [by apply signal_inv_store_state|]. intros _ s1 Hs1.
  rewrite bind_eq.
  apply holds_bind; [by apply signal_inv_set_value|]. intros _ s2 Hs2.
  rewrite bind_eq.
  apply holds_bind; [by apply holds_load|]. intros w s3 Hs3.
  revert s3 Hs3. apply holds_for_each. intros [c|] s4 Hs4; [|done].
  unfold notify_child. rewrite bind_eq.
  apply holds_bind; [by apply holds_load|]. intros me s5 Hs5.
  rewrite bind_eq. apply holds_bind; [by apply signal_inv_emit|].
  intros _ s6. apply signal_inv_trigger.
Qed.

Lemma signal_inv_reset fuel : ∀ deep n s,
  signal_inv s → holds signal_inv (reset fuel deep n s).
Proof.
  induction fuel as [|fuel IH]; intros deep n s Hs; [done|].
  cbn [reset]. rewrite bind_eq.
  apply holds_bind; [by apply holds_load|]. intros w s1 Hs1.
  rewrite bind_eq. apply holds_bind.
  { destruct (decide (m_state w = Running)); [|done].
    by apply signal_inv_wait_for_done. }
  intros _ s2 Hs2. rewrite bind_eq.
  apply holds_bind; [by apply signal_inv_store_state|]. intros _ s3 Hs3.
  rewrite bind_eq. apply holds_bind.
  { apply signal_inv_modify; [done|]. intros v _ _. by split. }
  intros _ s4 Hs4. rewrite bind_eq.
  apply holds_bind; [by apply signal_inv_modify_other|]. intros _ s5 Hs5.
  destruct deep; [|done]. rewrite bind_eq.
  apply holds_bind; [by apply holds_load|]. intros w' s6 Hs6.
  revert s6 Hs6. apply holds_for_each. intros [c|] s7 Hs7; [|done].
  by apply IH.
Qed.

Lemma signal_inv_run_call c s :
  signal_inv s → holds signal_inv (run_call c s).
Proof.
  intros Hs. destruct c; cbn [run_call].
  - rewrite bind_eq. apply holds_bind; [by apply signal_inv_make_shared|].
    by intros _ s'.
  - by apply signal_inv_wire.
  - by apply signal_inv_wire.
  - by apply signal_inv_register_child.
  - by apply signal_inv_modify_other.
  - by apply signal_inv_trigger.
  - by apply signal_inv_reset.
  - by apply signal_inv_wait_for_done.
  - by apply signal_inv_done.
Qed.

Lemma settle_inv I o ps cfg' :
  holds I o → Forall (parked_inv I) ps →
  settle o ps = Some cfg' → config_inv I cfg'.
Proof.
  intros Ho Hps. destruct o as [[] s|s|s n k| |]; simpl; intros [= <-].
  - by split.
  - by split.
  - destruct Ho as [Hs Hk]. split; [done|]. simpl.
    apply Forall_app. split; [done|]. by repeat constructor.
Qed.

Lemma step_inv cfg cfg' :
  config_inv signal_inv cfg → step cfg cfg' → config_inv signal_inv cfg'.
Proof.
  intros [Hs Hps] Hstep. destruct Hstep as [c cfg cfg' Hset|i n k cfg cfg' Hi Hp Hset].
  - eapply settle_inv; [|exact Hps|exact Hset]. by apply signal_inv_run_call.
  - eapply settle_inv; [| |exact Hset].
    + eapply (Forall_lookup_1 _ _ _ _ Hps Hi); done.
    + by apply Forall_delete.
Qed.

Lemma reachable_inv cfg : reachable cfg → config_inv signal_inv cfg.
Proof.
  unfold reachable. revert cfg. apply rtc_ind_r.
  - split; [|by constructor]. intros n w Hn. simpl in Hn.
    by rewrite lookup_empty in Hn.
  - intros y z _ Hstep Hy. by eapply step_inv.
Qed.

Lemma parked_waiters_return ps s :
  Forall (can_return s) ps →
  ∃ s', rtc step (mkConfig s ps) (mkConfig s' []) ∧
        trace s' = trace s ∧
        ∀ m, field m_promise_done m s' = field m_promise_done m s ∧
             field m_state m s' = field m_state m s.
Proof.
  revert s. induction ps as [|[n k] ps IH]; intros s Hps.
  - exists s. split; [apply rtc_refl|done].
  - apply Forall_cons in Hps as [[Hk Hp] Hps]. simpl in Hk, Hp. subst k.
    unfold field in Hp.
    destruct (heap s !! n) as [w|] eqn:Hn; [|done]. simpl in Hp.
    set (s1 := mkSys (<[n := with_is_done false w]> (heap s)) (trace s)).
    assert (Hget : future_get n s = Ret tt s1).
    { unfold future_get. by rewrite (modify_Some _ _ _ _ Hn). }
    assert (Hsame : ∀ m, field m_promise_done m s1 = field m_promise_done m s ∧
                         field m_state m s1 = field m_state m s).
    { intros m. unfold field, s1. simpl. destruct (decide (m = n)) as [->|Hm].
      - by rewrite lookup_insert_eq, Hn.
      - by rewrite lookup_insert_ne. }
    destruct (IH s1) as (s' & Hsteps & Htr & Hf).
    { eapply Forall_impl; [exact Hps|]. intros p [Hk' Hp'].
      split; [done|]. by rewrite (proj1 (Hsame _)). }
    exists s'. split.
    + eapply rtc_l; [|exact Hsteps].
      eapply (step_wake 0 n (future_get n)); [done| |by simpl; rewrite Hget].
      unfold field. simpl. by rewrite Hn.
    + split; [by rewrite Htr|]. intros m.
      destruct (Hf m) as [-> ->]. apply Hsame.
Qed.


(** ** Instances of the theorems at concrete graphs *)

(** Settles a decidable closed proposition by evaluation. *)
Ltac by_compute := refine (bool_decide_unpack _ _); vm_compute; exact I.

(** [trigger] on a root that is already [Running]. *)
Lemma trigger_noop_on_running_root :
  trigger Completed 1%positive (after lone_running empty_sys) =
    Ret tt (after lone_running empty_sys) ∧
  (∀ fuel deep s',
     reset fuel deep 1%positive (after lone_running empty_sys) = Ret tt s' →
     field m_state 1%positive s' = Some Created) ∧
  (m_state (with_state Running (Work_new [set_completed; set_failed])) ≠ Running →
   ∀ fuel, ∃ s',
     reset (S fuel) false 1%positive (after lone_running empty_sys) = Ret tt s' ∧
     field m_state 1%positive s' = Some Created).
Proof.
  apply (trigger_noop_unless_created Completed 1%positive
           (with_state Running (Work_new [set_completed; set_failed]))).
  - vm_compute. reflexivity.
  - left. reflexivity.
Defined.

(** [trigger( Failed )] on the middle node of the [ALL]-wired chain. *)
Lemma failed_signal_on_chain_middle :
  trigger Failed 2%positive (after chain_all empty_sys) =
    Ret tt (after chain_all empty_sys).
Proof.
  apply (failed_parent_signal_changes_nothing 2%positive
           (registered (Some 3%positive)
              (with_trigger_condition AND (Work_new [set_completed])))).
  - vm_compute. reflexivity.
  - reflexivity.
Defined.

(** Node 2 wired under node 1 by both helpers, in both orders. *)
Lemma rewiring_two_nodes :
  (∃ s1 s2,
     execute_if_any_finished (Some <$> [1%positive]) (Some <$> [2%positive])
       two_nodes = Ret tt s1 ∧
     field m_trigger_condition 2%positive s1 = Some OR ∧
     execute_if_all_finished (Some <$> [1%positive]) (Some <$> [2%positive])
       s1 = Ret tt s2 ∧
     field m_trigger_condition 2%positive s2 = Some AND) ∧
  (∃ s1 s2,
     execute_if_all_finished (Some <$> [1%positive]) (Some <$> [2%positive])
       two_nodes = Ret tt s1 ∧
     field m_trigger_condition 2%positive s1 = Some AND ∧
     execute_if_any_finished (Some <$> [1%positive]) (Some <$> [2%positive])
       s1 = Ret tt s2 ∧
     field m_trigger_condition 2%positive s2 = Some OR).
Proof.
  apply (last_wiring_call_sets_gate [1%positive] [2%positive]
           [1%positive] [2%positive] 2%positive two_nodes).
  - by_compute.
  - by_compute.
  - by_compute.
  - by_compute.
  - discriminate.
  - by_compute.
  - discriminate.
  - by_compute.
Defined.


(** The root of the [ALL]-wired chain, running, finalises. *)
Lemma chain_root_fan_out :
  ∃ s' evs,
    done (m_control set_completed) 1%positive
      (after (trigger Completed 1%positive) (after chain_all empty_sys)) =
      Ret tt s' ∧
    trace s' =
      trace (after (trigger Completed 1%positive) (after chain_all empty_sys)) ++
      [EvState 1%positive (m_control set_completed); EvSetValue 1%positive] ++
      evs ∧
    Forall (fan_event 1%positive) evs ∧
    (∀ c, triggers_to c evs =
          occurrences c
            (m_children
               (mkWork Running [Some 2%positive] [set_completed] false true 0 1 OR))) ∧
    ∀ cs1 c cs2,
      m_children
        (mkWork Running [Some 2%positive] [set_completed] false true 0 1 OR) =
        cs1 ++ Some c :: cs2 →
      ∃ s_mid evs1,
        done (m_control set_completed) 1%positive
          (after (trigger Completed 1%positive) (after chain_all empty_sys)) =
          (notify_child 1%positive (Some c) >>
           for_each cs2 (notify_child 1%positive)) s_mid ∧
        field m_state 1%positive s_mid = Some (m_control set_completed) ∧
        field m_promise_done 1%positive s_mid = Some true ∧
        trace s_mid =
          trace (after (trigger Completed 1%positive)
                       (after chain_all empty_sys)) ++
          [EvState 1%positive (m_control set_completed); EvSetValue 1%positive] ++
          evs1.
Proof.
  apply (fan_out_follows_publication set_completed 1%positive
           (mkWork Running [Some 2%positive] [set_completed] false true 0 1 OR)
           (after (trigger Completed 1%positive) (after chain_all empty_sys))).
  - vm_compute. reflexivity.
  - reflexivity.
  - intros c Hc. simpl in Hc. apply list_elem_of_singleton in Hc.
    injection Hc as ->. by_compute.
Defined.

(** The worker of a lone node calls [set_completed], then [set_failed]. *)
Lemma lone_node_finalized_twice :
  ∃ s1 w1,
    done (m_control set_completed) 1%positive (after lone_running empty_sys) =
      Ret tt s1 ∧
    heap s1 !! 1%positive = Some w1 ∧
    m_state w1 = m_control set_completed ∧
    m_promise_done w1 = true ∧
    done (m_control set_failed) 1%positive s1 =
      Throw (mkSys (<[1%positive := with_state (m_control set_failed) w1]> (heap s1))
                   (trace s1 ++ [EvState 1%positive (m_control set_failed)])).
Proof.
  apply (second_finalize_overwrites_state_and_throws set_completed set_failed
           1%positive
           (mkWork Running [] [set_completed; set_failed] false true 0 0 OR)
           (after lone_running empty_sys)).
  - vm_compute. reflexivity.
  - reflexivity.
  - intros c Hc. simpl in Hc. by apply elem_of_nil in Hc.
Defined.


(** Both of them return. *)
Example two_parked_callers_both_return :
  reachable two_waiters ∧
  ∃ s, rtc step two_waiters (mkConfig s []) ∧
       field m_state 1%positive s = Some Completed ∧
       wait_for_done 1%positive s = Ret tt s.
Proof.
  split.
  { unfold reachable.
    eapply rtc_l; [by apply (step_call (CallNew [set_completed]))|].
    eapply rtc_l; [by apply (step_call (CallTrigger Completed 1%positive))|].
    eapply rtc_l; [by apply (step_call (CallWaitForDone 1%positive))|].
    eapply rtc_l; [by apply (step_call (CallWaitForDone 1%positive))|].
    eapply rtc_l; [by apply (step_call (CallControl set_completed 1%positive))|].
    by vm_compute. }
  destruct (parked_waiters_return (parked two_waiters) (sys two_waiters))
    as (s & Hsteps & _ & Hf).
  { repeat constructor. }
  exists s. split; [exact Hsteps|].
  destruct (Hf 1%positive) as [Hp Hst]. split.
  { rewrite Hst. by vm_compute. }
  assert (Hp' : field m_promise_done 1%positive s = Some true).
  { rewrite Hp. by vm_compute. }
  apply fmap_Some in Hp' as (w & Hw & Hp').
  by rewrite (wait_for_done_eq _ _ _ Hw), <- Hp', andb_false_r.
Qed.

(** ** The graph of [main.cpp] *)

(** [main] in the order of its calls: [W0->trigger()] returns; the first
    [W3->wait_for_done()] parks, W3 not having finalised; the four workers
    run in the order W0, W1, W2, W3; the parked call is woken and returns and
    the second [W3->wait_for_done()] returns at once.  All four nodes end
    [Completed], and W3 was started once, by the completion of W1 alone. *)
Example main_graph_run :
  ∃ s1 s2 s3 s4,
    main_graph empty_sys = Ret (1, 2, 3, 4)%positive s1 ∧
    trigger Completed 1%positive s1 = Ret tt s2 ∧
    wait_for_done 4%positive s2 = Block s2 4%positive (future_get 4%positive) ∧
    (run_worker 1%positive >> run_worker 2%positive >>
     run_worker 3%positive >> run_worker 4%positive) s2 = Ret tt s3 ∧
    field m_promise_done 4%positive s3 = Some true ∧
    (future_get 4%positive >> wait_for_done 4%positive) s3 = Ret tt s4 ∧
    (∀ n, n ∈ [1; 2; 3; 4]%positive → field m_state n s4 = Some Completed) ∧
    filter (λ e, e = EvSpawn 4%positive) (trace s4) = [EvSpawn 4%positive] ∧
    (∃ pre post,
       trace s4 = pre ++ [EvTrigger 4 Completed; EvState 4 Running;
                          EvSpawn 4]%positive ++ post ∧
       EvSetValue 3%positive ∉ pre).
Proof.
  set (s1 := after main_graph empty_sys).
  set (s2 := after (trigger Completed 1%positive) s1).
  set (s3 := after (run_worker 1%positive >> run_worker 2%positive >>
                    run_worker 3%positive >> run_worker 4%positive) s2).
  set (s4 := after (future_get 4%positive >> wait_for_done 4%positive) s3).
  exists s1, s2, s3, s4.
  split; [by vm_compute|]. split; [by vm_compute|]. split; [by vm_compute|].
  split; [by vm_compute|]. split; [by vm_compute|]. split; [by vm_compute|].
  split.
  { intros n Hn. repeat (apply elem_of_cons in Hn as [->|Hn]; [by vm_compute|]).
    by apply elem_of_nil in Hn. }
  split; [by vm_compute|].
  exists [EvState 1 Running; EvSpawn 1; EvState 1 Completed; EvSetValue 1;
          EvTrigger 2 Completed; EvState 2 Running; EvSpawn 2;
          EvTrigger 3 Completed; EvState 3 Running; EvSpawn 3;
          EvState 2 Completed; EvSetValue 2]%positive.
  eexists. split; [vm_compute; reflexivity|].
  by_compute.
Qed.

(** * Further properties of the code *)

(** ** [trigger]: what it touches, and how often it launches *)

Lemma trigger_cases ps n w s :
  heap s !! n = Some w →
  trigger ps n s = Ret tt s ∧
    (m_state w ≠ Created ∨ ps ≠ Completed) ∨
  m_state w = Created ∧ ps = Completed ∧
    if run_now (count_down w)
    then trigger ps n s =
           Ret tt (mkSys (<[n := with_state Running (count_down w)]> (heap s))
                         (trace s ++ [EvState n Running; EvSpawn n]))
    else trigger ps n s =
           Ret tt (mkSys (<[n := count_down w]> (heap s)) (trace s)).
Proof.
  intros Hn. destruct (decide (m_state w = Created)) as [Hst|Hst].
  2: { left. split; [|by left]. by apply (trigger_not_created _ _ _ _ Hn). }
  destruct (decide (ps = Completed)) as [->|Hps].
  2: { left. split; [|by right]. by apply (trigger_not_completed _ _ _ _ Hn). }
  right. split; [done|]. split; [done|].
  rewrite (trigger_completed_created _ _ _ Hn Hst).
  by destruct (run_now (count_down w)).
Qed.

Lemma count_down_le w : m_parent_count (count_down w) ≤ m_parent_count w.
Proof.
  unfold count_down. destruct (decide (0 < m_parent_count w)); simpl; lia.
Qed.

(** X1: [trigger] changes nothing but the object it is called on, and of that
    object only [m_state] and [m_parent_count]: the children list, the gate,
    the worker, the promise, the future and the saved count stay, every other
    object stays, the parent count never grows, and the only events it can
    add are the store of [Running] and the start of the worker, together.
    On an address that holds no object the call is undefined. *)
Theorem trigger_frame (ps : State) (n : addr) (s : Sys) :
  match heap s !! n with
  | None => trigger ps n s = Fault
  | Some w =>
      ∃ w' evs,
        trigger ps n s = Ret tt (mkSys (<[n := w']> (heap s)) (trace s ++ evs)) ∧
        trigger_rel w w' ∧
        m_parent_count w' ≤ m_parent_count w ∧
        (evs = [] ∧ m_state w' = m_state w ∨
         evs = [EvState n Running; EvSpawn n] ∧
           m_state w = Created ∧ ps = Completed ∧ m_state w' = Running)
  end.
Proof.
  destruct (heap s !! n) as [w|] eqn:Hn; [|by apply trigger_unallocated].
  destruct (trigger_cases ps n w s Hn) as [[Heq _]|(Hst & -> & Hrun)].
  - exists w, []. rewrite Heq, insert_id, app_nil_r by done.
    split; [by destruct s|]. split; [apply trigger_rel_refl|].
    split; [lia|]. by left.
  - assert (Hcd : trigger_rel w (count_down w)).
    { unfold count_down. destruct (decide (0 < m_parent_count w)).
      - by repeat split.
      - apply trigger_rel_refl. }
    destruct (run_now (count_down w)).
    + exists (with_state Running (count_down w)), [EvState n Running; EvSpawn n].
      split; [done|]. split.
      { destruct Hcd as (?&?&?&?&?&?&?). by repeat split. }
      split; [apply count_down_le|]. by right.
    + exists (count_down w), []. rewrite app_nil_r. split; [done|].
      split; [done|]. split; [apply count_down_le|]. left. split; [done|].
      unfold count_down. by destruct (decide (0 < m_parent_count w)).
Qed.

Lemma spawns_app n evs1 evs2 :
  spawns n (evs1 ++ evs2) = (spawns n evs1 + spawns n evs2)%nat.
Proof. unfold spawns. by rewrite filter_app, length_app. Qed.

Lemma spawns_launch n : spawns n [EvState n Running; EvSpawn n] = 1%nat.
Proof.
  unfold spawns. cbn [filter list_filter is_spawn_of].
  by rewrite (bool_decide_eq_true_2 (n = n)).
Qed.

Lemma trigger_each_not_created pss n w s :
  heap s !! n = Some w → m_state w ≠ Created →
  trigger_each pss n s = Ret tt s.
Proof.
  intros Hn Hst. unfold trigger_each. induction pss as [|ps pss IH]; [done|].
  cbn [for_each]. by rewrite bind_eq, (trigger_not_created _ _ _ _ Hn Hst).
Qed.

Lemma trigger_each_launches (pss : list State) (n : addr) (w : Work) (s : Sys) :
  heap s !! n = Some w →
  ∃ s' evs,
    trigger_each pss n s = Ret tt s' ∧
    trace s' = trace s ++ evs ∧
    (spawns n evs ≤ 1)%nat ∧
    (m_state w ≠ Created → s' = s) ∧
    (m_state w = Created → m_trigger_condition w = OR →
     spawns n evs = if decide (Completed ∈ pss) then 1%nat else 0%nat).
Proof.
  revert w s. induction pss as [|ps pss IH]; intros w s Hn.
  { exists s, []. rewrite app_nil_r. repeat split; try done.
    unfold spawns. simpl. lia. }
  destruct (decide (m_state w = Created)) as [Hst|Hst].
  2: { exists s, []. rewrite app_nil_r.
       split; [by apply (trigger_each_not_created _ _ w)|].
       repeat split; try done. unfold spawns. simpl. lia. }
  destruct (trigger_cases ps n w s Hn) as [[Heq [?|Hps]]|(_ & -> & Hrun)];
    [done| |].
  - (* a signal that is not [Completed] *)
    destruct (IH w s Hn) as (s' & evs & Heach & Htr & Hle & _ & Hor).
    exists s', evs. split.
    { unfold trigger_each in *. cbn [for_each]. by rewrite bind_eq, Heq. }
    split; [done|]. split; [done|]. split; [done|]. intros _ Hg.
    rewrite (Hor Hst Hg). destruct (decide (Completed ∈ pss)) as [Hin|Hnin].
    + rewrite decide_True; [done|]. by right.
    + rewrite decide_False; [done|].
      intros [?|?]%elem_of_cons; [congruence|done].
  - destruct (run_now (count_down w)) eqn:Hrn.
    + (* the worker is started; the rest of the calls are no-ops *)
      set (s1 := mkSys _ _) in Hrun.
      exists s1, [EvState n Running; EvSpawn n]. split.
      { unfold trigger_each. cbn [for_each]. rewrite bind_eq, Hrun. simpl.
        apply (trigger_each_not_created pss n
                 (with_state Running (count_down w))); [|done].
        unfold s1; simpl. apply lookup_insert_eq. }
      split; [done|]. rewrite spawns_launch. split; [lia|].
      split; [done|]. intros _ _. rewrite decide_True; [done|]. by left.
    + (* an [AND] gate that still waits *)
      set (s1 := mkSys _ _) in Hrun.
      assert (Hn1 : heap s1 !! n = Some (count_down w)).
      { unfold s1; simpl. apply lookup_insert_eq. }
      destruct (IH _ s1 Hn1) as (s' & evs & Heach & Htr & Hle & _ & _).
      exists s', evs. split.
      { unfold trigger_each in *. cbn [for_each]. by rewrite bind_eq, Hrun. }
      split; [by rewrite Htr|]. split; [done|]. split; [done|].
      intros _ Hg. unfold run_now in Hrn.
      replace (m_trigger_condition (count_down w)) with OR in Hrn; [done|].
      rewrite <- Hg. unfold count_down.
      by destruct (decide (0 < m_parent_count w)).
Qed.

Lemma trigger_in_two_steps ps n s :
  trigger ps n s = (do b <- trigger_test n; when b (trigger_act ps n)) s.
Proof.
  unfold trigger, trigger_test, trigger_act, when. rewrite !bind_eq.
  unfold load at 1 3. destruct (heap s !! n) as [w|] eqn:Hn; [|done]. simpl.
  destruct (decide (m_state w = Created)) as [Hst|Hst].
  - rewrite bool_decide_eq_true_2 by done.
    destruct (decide (ps = Completed)); [|done].
    symmetry. rewrite bind_eq, (load_Some _ _ _ Hn). reflexivity.
  - by rewrite bool_decide_eq_false_2.
Qed.

Lemma trigger_act_launches n w s :
  heap s !! n = Some w → m_parent_count w = 0 →
  trigger_act Completed n s =
    Ret tt (mkSys (<[n := with_state Running w]> (heap s))
                  (trace s ++ [EvState n Running; EvSpawn n])).
Proof.
  intros Hn Hc. unfold trigger_act. rewrite decide_True by done.
  rewrite bind_eq, (load_Some _ _ _ Hn). simpl.
  rewrite decide_False by lia. rewrite bind_eq. unfold ret at 1. simpl.
  rewrite bind_eq, (load_Some _ _ _ Hn). simpl.
  replace (match m_trigger_condition w with
           | OR => true
           | AND => bool_decide (m_parent_count w = 0)
           end) with true
    by (destruct (m_trigger_condition w); [done|];
        by rewrite bool_decide_eq_true_2).
  mrun Hn. by rewrite <- app_assoc.
Qed.

(** X2: [trigger] calls on one node that follow one another (each returns
    before the next begins) all return and together start its worker at most
    once, with whatever parent states; on a node that is not [Created] they
    change nothing, and with an [OR] gate the worker of a [Created] node is
    started exactly once if one of the signals is [Completed].  This rests on
    the calls not overlapping: [trigger] is the test of [m_state] followed by
    a body that stores [Running] without testing again, and when both tests
    of two [Completed] calls come before either body, on a [Created] node
    whose parent count is zero, both calls start the worker. *)
Theorem trigger_launches_once_unless_calls_overlap
    (pss : list State) (n : addr) (w : Work) (s : Sys) :
  heap s !! n = Some w →
  (∃ s' evs,
     trigger_each pss n s = Ret tt s' ∧
     trace s' = trace s ++ evs ∧
     (spawns n evs ≤ 1)%nat ∧
     (m_state w ≠ Created → s' = s) ∧
     (m_state w = Created → m_trigger_condition w = OR →
      spawns n evs = if decide (Completed ∈ pss) then 1%nat else 0%nat)) ∧
  (∀ ps t, trigger ps n t =
           (do b <- trigger_test n; when b (trigger_act ps n)) t) ∧
  (m_state w = Created → m_parent_count w = 0 →
   trigger_overlapping Completed Completed n s =
     Ret tt (mkSys (<[n := with_state Running w]> (heap s))
                   (trace s ++ [EvState n Running; EvSpawn n;
                                EvState n Running; EvSpawn n])) ∧
   spawns n [EvState n Running; EvSpawn n; EvState n Running; EvSpawn n]
     = 2%nat).
Proof.
  intros Hn. split; [by apply trigger_each_launches|].
  split; [intros ps t; apply trigger_in_two_steps|].
  intros Hst Hc. split.
  - unfold trigger_overlapping, trigger_test.
    rewrite !bind_eq, (load_Some _ _ _ Hn). simpl.
    rewrite !bind_eq, (load_Some _ _ _ Hn). simpl.
    rewrite bool_decide_eq_true_2 by done. unfold when.
    rewrite bind_eq, (trigger_act_launches n w s Hn Hc). simpl.
    erewrite trigger_act_launches;
      [|simpl; apply lookup_insert_eq|by destruct w].
    simpl. rewrite insert_insert_eq, <- app_assoc. by destruct w.
  - change [EvState n Running; EvSpawn n; EvState n Running; EvSpawn n]
      with ([EvState n Running; EvSpawn n] ++ [EvState n Running; EvSpawn n]).
    by rewrite spawns_app, spawns_launch.
Qed.

Lemma with_parent_count_id w : with_parent_count (m_parent_count w) w = w.
Proof. by destruct w. Qed.

Lemma trigger_each_cons ps pss n s s1 :
  trigger ps n s = Ret tt s1 →
  trigger_each (ps :: pss) n s = trigger_each pss n s1.
Proof. intros H. unfold trigger_each. cbn [for_each]. by rewrite bind_eq, H. Qed.

(** X3: an [AND]-gated [Created] node whose own [m_parent_count] is [k] stays
    [Created] through every series of signals with fewer than [max k 1]
    [Completed] ones: each [Completed] signal takes one off the count (which
    stops at zero), other signals change nothing, and no event is added.  The
    [Completed] signal that comes next when [max k 1 - 1] have been counted
    sets the node [Running] with count zero and starts its worker. *)
Theorem all_gate_counts_completed_signals
    (pss : list State) (n : addr) (w : Work) (s : Sys) (k : nat) :
  heap s !! n = Some w →
  m_state w = Created →
  m_trigger_condition w = AND →
  m_parent_count w = N.of_nat k →
  (completed_among pss < max k 1)%nat →
  ∃ s1,
    trigger_each pss n s = Ret tt s1 ∧
    heap s1 =
      <[n := with_parent_count (N.of_nat (k - completed_among pss)) w]> (heap s) ∧
    trace s1 = trace s ∧
    ((completed_among pss + 1)%nat = max k 1 →
     trigger Completed n s1 =
       Ret tt (mkSys (<[n := with_state Running (with_parent_count 0 w)]> (heap s))
                     (trace s ++ [EvState n Running; EvSpawn n]))).
Proof.
  revert w s k. induction pss as [|ps pss IH]; intros w s k Hn Hst Hg Hk Hlt.
  - exists s. split; [done|]. simpl. rewrite Nat.sub_0_r, <- Hk.
    rewrite with_parent_count_id, insert_id by done. repeat (split; [done|]).
    intros Hone. rewrite (trigger_completed_created _ _ _ Hn Hst).
    assert (Hcd : count_down w = with_parent_count 0 w).
    { unfold count_down. destruct (decide (0 < m_parent_count w)).
      - f_equal. lia.
      - replace 0 with (m_parent_count w) by lia.
        by rewrite with_parent_count_id. }
    rewrite Hcd. unfold run_now. simpl. by rewrite Hg.
  - assert (Hskip : ps ≠ Completed →
      ∃ s1, trigger_each (ps :: pss) n s = Ret tt s1 ∧
        heap s1 = <[n := with_parent_count
                           (N.of_nat (k - completed_among pss)) w]> (heap s) ∧
        trace s1 = trace s ∧
        ((completed_among pss + 1)%nat = max k 1 →
         trigger Completed n s1 =
           Ret tt (mkSys (<[n := with_state Running (with_parent_count 0 w)]> (heap s))
                         (trace s ++ [EvState n Running; EvSpawn n])))).
    { intros Hps.
      rewrite (trigger_each_cons _ _ _ _ s
                 (trigger_not_completed _ _ _ _ Hn Hps)).
      apply IH; try done. by destruct ps. }
    destruct ps; try (apply Hskip; done). clear Hskip.
    cbn [completed_among] in *.
    assert (Hcd : count_down w = with_parent_count (N.of_nat (k - 1)) w).
    { unfold count_down. rewrite decide_True by lia. f_equal. lia. }
    pose proof (trigger_completed_created _ _ _ Hn Hst) as Htr.
    rewrite Hcd in Htr. unfold run_now in Htr. simpl in Htr. rewrite Hg in Htr.
    rewrite bool_decide_eq_false_2 in Htr by lia.
    rewrite (trigger_each_cons _ _ _ _ _ Htr).
    destruct (IH (with_parent_count (N.of_nat (k - 1)) w)
                 (mkSys (<[n := with_parent_count (N.of_nat (k - 1)) w]> (heap s))
                        (trace s)) (k - 1)%nat)
      as (s1 & Heach & Hheap & Htrace & Hnext); try done.
    { simpl. apply lookup_insert_eq. }
    { lia. }
    exists s1. split; [done|]. simpl in Hheap, Htrace.
    rewrite insert_insert_eq in Hheap. split.
    { rewrite Hheap.
      replace (k - S (completed_among pss))%nat
        with (k - 1 - completed_among pss)%nat by lia.
      reflexivity. }
    split; [done|]. intros Hone. rewrite Hnext by lia. simpl.
    by rewrite insert_insert_eq.
Qed.

(** The middle node of the [ALL]-wired chain receives a [Failed] signal. *)
Lemma chain_middle_counts :
  ∃ s1,
    trigger_each [Failed] 2%positive (after chain_all empty_sys) = Ret tt s1 ∧
    heap s1 =
      <[2%positive :=
          with_parent_count (N.of_nat (1 - completed_among [Failed]))
            (mkWork Created [Some 3%positive] [set_completed] false true 1 1 AND)]>
        (heap (after chain_all empty_sys)) ∧
    trace s1 = trace (after chain_all empty_sys) ∧
    ((completed_among [Failed] + 1)%nat = max 1 1 →
     trigger Completed 2%positive s1 =
       Ret tt (mkSys
                 (<[2%positive :=
                      with_state Running
                        (with_parent_count 0
                           (mkWork Created [Some 3%positive] [set_completed]
                                   false true 1 1 AND))]>
                    (heap (after chain_all empty_sys)))
                 (trace (after chain_all empty_sys) ++
                  [EvState 2%positive Running; EvSpawn 2%positive]))).
Proof.
  apply (all_gate_counts_completed_signals [Failed] 2%positive
           (mkWork Created [Some 3%positive] [set_completed] false true 1 1 AND)
           (after chain_all empty_sys) 1).
  - vm_compute. reflexivity.
  - reflexivity.
  - reflexivity.
  - reflexivity.
  - simpl. lia.
Defined.

(** ** Wiring: the empty vector, and the Cartesian product *)

(** X4: a wiring helper called with an empty parents vector, or with an empty
    children vector, returns with nothing changed; no pointer of the other
    vector is dereferenced (it may be null), and in particular the gate of
    the children named next to an empty parents vector is not set. *)
Theorem wiring_with_empty_vector (parents children : WorkerSet) (s : Sys) :
  execute_if_all_finished [] children s = Ret tt s ∧
  execute_if_any_finished [] children s = Ret tt s ∧
  execute_if_all_finished parents [] s = Ret tt s ∧
  execute_if_any_finished parents [] s = Ret tt s.
Proof.
  assert (Hempty : ∀ g, wire g parents [] s = Ret tt s).
  { intros g. unfold wire. induction parents as [|p ps IH]; [done|].
    cbn [for_each]. rewrite bind_eq. simpl. exact IH. }
  repeat split; try done; apply Hempty.
Qed.

Lemma linked_children g p c m w :
  m_children (linked g p c m w) =
    if decide (m = p) then m_children w ++ [Some c] else m_children w.
Proof. unfold linked. by destruct (decide (m = c)), (decide (m = p)). Qed.

Lemma linked_count g p c m w :
  m_parent_count (linked g p c m w) =
    if decide (m = p) then size_incr (m_parent_count w) else m_parent_count w.
Proof. unfold linked. by destruct (decide (m = c)), (decide (m = p)). Qed.

Lemma linked_gate g p c m w :
  m_trigger_condition (linked g p c m w) =
    if decide (m = c) then g else m_trigger_condition w.
Proof. unfold linked. by destruct (decide (m = c)), (decide (m = p)). Qed.

Lemma linked_rest g p c m w :
  m_state (linked g p c m w) = m_state w ∧
  m_worker (linked g p c m w) = m_worker w ∧
  m_promise_done (linked g p c m w) = m_promise_done w ∧
  m_is_done (linked g p c m w) = m_is_done w.
Proof. unfold linked. by destruct (decide (m = c)), (decide (m = p)). Qed.

Lemma size_incr_lt x : size_incr x < SIZE_MODULUS.
Proof. unfold size_incr. by apply N.mod_lt. Qed.

Lemma inner_fields g p m cs : ∀ w,
  m_parent_count w < SIZE_MODULUS →
  let w' := foldl (λ w child, linked g p child m w) w cs in
  m_children w' =
    (if decide (m = p) then m_children w ++ (Some <$> cs) else m_children w) ∧
  m_parent_count w' =
    (if decide (m = p)
     then (m_parent_count w + N.of_nat (length cs)) mod SIZE_MODULUS
     else m_parent_count w) ∧
  m_parent_count w' < SIZE_MODULUS ∧
  (m ∉ cs → m_trigger_condition w' = m_trigger_condition w) ∧
  m_state w' = m_state w ∧ m_worker w' = m_worker w ∧
  m_promise_done w' = m_promise_done w ∧ m_is_done w' = m_is_done w.
Proof.
  induction cs as [|c cs IH]; intros w Hlt; simpl.
  - destruct (decide (m = p)).
    + rewrite app_nil_r, N.add_0_r, N.mod_small by done. by repeat split.
    + by repeat split.
  - destruct (IH (linked g p c m w)) as (Hch & Hcnt & Hlt' & Hgate & Hst & Hwk & Hpr & Hdn).
    { rewrite linked_count. destruct (decide (m = p)); [apply size_incr_lt|done]. }
    destruct (linked_rest g p c m w) as (Hst0 & Hwk0 & Hpr0 & Hdn0).
    split; [|split; [|split; [exact Hlt'|split]]].
    + rewrite Hch, linked_children.
      destruct (decide (m = p)); [|done]. by rewrite <- app_assoc.
    + rewrite Hcnt, linked_count.
      destruct (decide (m = p)); [|done]. unfold size_incr.
      rewrite N.Div0.add_mod_idemp_l. f_equal. lia.
    + intros Hnin. rewrite Hgate, linked_gate.
      * rewrite decide_False; [done|]. intros ->. apply Hnin. by left.
      * intros Hin. apply Hnin. by right.
    + repeat split; congruence.
Qed.

Lemma wired_fields g ps cs m : ∀ w,
  m_parent_count w < SIZE_MODULUS →
  let w' := wired g ps cs m w in
  m_children w' =
    m_children w ++ concat (replicate (count_in m ps) (Some <$> cs)) ∧
  m_parent_count w' =
    (m_parent_count w + N.of_nat (count_in m ps * length cs)) mod SIZE_MODULUS ∧
  (m ∉ cs → m_trigger_condition w' = m_trigger_condition w) ∧
  m_state w' = m_state w ∧ m_worker w' = m_worker w ∧
  m_promise_done w' = m_promise_done w ∧ m_is_done w' = m_is_done w.
Proof.
  unfold wired. induction ps as [|p ps IH]; intros w Hlt; simpl.
  - rewrite app_nil_r, N.add_0_r, N.mod_small by done. by repeat split.
  - destruct (inner_fields g p m cs w Hlt)
      as (Hch & Hcnt & Hlt' & Hgate & Hst & Hwk & Hpr & Hdn).
    destruct (IH _ Hlt') as (Hch' & Hcnt' & Hgate' & Hst' & Hwk' & Hpr' & Hdn').
    split; [|split; [|split]].
    + rewrite Hch', Hch. destruct (decide (m = p)) as [->|Hne].
      * rewrite decide_True by done. simpl. by rewrite <- app_assoc.
      * rewrite decide_False by done. done.
    + rewrite Hcnt', Hcnt. destruct (decide (m = p)) as [->|Hne].
      * rewrite decide_True by done.
        rewrite N.Div0.add_mod_idemp_l. f_equal. lia.
      * rewrite decide_False by done. done.
    + intros Hnin. by rewrite Hgate', Hgate.
    + repeat split; congruence.
Qed.

(** X5: a wiring helper called with vectors of valid pointers returns, adds
    no event, and does to every object exactly this: for each time the object
    occurs among the parents, the whole children vector is appended to its
    children list and its own parent count grows by the length of that
    vector (as a [size_t]); its gate becomes the helper's gate if it is
    named among the children (and there is a parent), and stays otherwise;
    its state, worker, promise and future stay.  An object that is neither
    among the parents nor among the children is untouched. *)
Theorem wiring_is_a_cartesian_product
    (g : Conditional) (ps cs : list addr) (s : Sys) :
  allocated s ps → allocated s cs →
  ∃ s',
    wire g (Some <$> ps) (Some <$> cs) s = Ret tt s' ∧
    trace s' = trace s ∧
    ∀ m w,
      heap s !! m = Some w → m_parent_count w < SIZE_MODULUS →
      ∃ w',
        heap s' !! m = Some w' ∧
        m_children w' =
          m_children w ++ concat (replicate (count_in m ps) (Some <$> cs)) ∧
        m_parent_count w' =
          (m_parent_count w + N.of_nat (count_in m ps * length cs))
            mod SIZE_MODULUS ∧
        m_trigger_condition w' =
          (if decide (ps ≠ [] ∧ m ∈ cs) then g else m_trigger_condition w) ∧
        m_state w' = m_state w ∧ m_worker w' = m_worker w ∧
        m_promise_done w' = m_promise_done w ∧ m_is_done w' = m_is_done w ∧
        (m ∉ ps → m ∉ cs → w' = w).
Proof.
  intros Hps Hcs.
  destruct (wire_spec g ps cs s Hps Hcs) as (s' & Hwire & Htrace & Hheap).
  exists s'. split; [done|]. split; [done|].
  intros m w Hm Hlt. exists (wired g ps cs m w).
  split; [by rewrite Hheap, Hm|].
  destruct (wired_fields g ps cs m w Hlt)
    as (Hch & Hcnt & Hgate & Hst & Hwk & Hpr & Hdn).
  split; [done|]. split; [done|]. split.
  { destruct (decide (ps ≠ [] ∧ m ∈ cs)) as [[Hne Hin]|Hnot].
    - by apply wired_gate_set.
    - destruct (decide (m ∈ cs)) as [Hin|Hnin]; [|by apply Hgate].
      destruct ps as [|p ps']; [done|]. destruct Hnot. by split. }
  repeat (split; [done|]).
  intros Hnps Hncs. unfold wired. clear -Hnps Hncs.
  revert w. induction ps as [|p ps IH]; intros w; [done|]. simpl.
  rewrite IH by (intros Hin; apply Hnps; by right).
  assert (m ≠ p) by (intros ->; apply Hnps; by left).
  clear IH Hnps. revert w. induction cs as [|c cs IH]; intros w; [done|].
  simpl. rewrite IH by (intros Hin; apply Hncs; by right).
  assert (m ≠ c) by (intros ->; apply Hncs; by left).
  unfold linked. by destruct (decide (m = c)), (decide (m = p)).
Qed.

(** ** A node that fails *)

Lemma fan_out_failed n w cs : ∀ s,
  heap s !! n = Some w → m_state w = Failed →
  (∀ c, Some c ∈ cs → is_Some (heap s !! c)) →
  for_each cs (notify_child n) s =
    Ret tt (mkSys (heap s) (trace s ++ failed_calls cs)).
Proof.
  induction cs as [|[c|] cs IH]; intros s Hn Hst Halloc.
  - simpl. unfold ret. rewrite app_nil_r. by destruct s.
  - destruct (Halloc c) as [v Hc]; [by left|].
    cbn [for_each]. rewrite bind_eq. unfold notify_child.
    rewrite bind_eq, (load_Some _ _ _ Hn). simpl. rewrite bind_eq. simpl.
    rewrite Hst.
    rewrite (trigger_not_completed Failed c v) by done. simpl.
    rewrite IH; try done.
    + simpl. by rewrite <- app_assoc.
    + intros c' Hc'. simpl. apply Halloc. by right.
  - cbn [for_each]. rewrite bind_eq. simpl. rewrite IH; try done.
    intros c' Hc'. apply Halloc. by right.
Qed.

(** X6: when a worker reports failure, [done] records [Failed], sets the
    promise and calls [trigger( Failed )] on every child that is not null, in
    the order of the children list, and that is all: no child changes in any
    way, none is started, and a null entry is skipped. *)
Theorem failed_node_launches_no_child (n : addr) (w : Work) (s : Sys) :
  heap s !! n = Some w →
  m_promise_done w = false →
  (∀ c, Some c ∈ m_children w → is_Some (heap s !! c)) →
  done (m_control set_failed) n s =
    Ret tt (mkSys (<[n := finalized Failed w]> (heap s))
                  (trace s ++ [EvState n Failed; EvSetValue n] ++
                   failed_calls (m_children w))).
Proof.
  intros Hn Hp Halloc. simpl. rewrite (done_fresh _ _ _ _ Hn Hp).
  rewrite (fan_out_failed n (finalized Failed w)); try done.
  - simpl. by rewrite <- app_assoc.
  - simpl. apply lookup_insert_eq.
  - intros c Hc. simpl. destruct (decide (n = c)) as [->|Hne].
    + rewrite lookup_insert_eq. by eexists.
    + rewrite lookup_insert_ne by done. by apply Halloc.
Qed.

(** ** [reset] without recursion *)

(** X7: on a node that is not [Running], [reset( false )] returns, touches no
    other object, and leaves the node [Created] with a promise without value
    and a valid future, so that [wait_for_done] parks again even if the node
    had finished before.  The children list, the gate, the worker and
    [m_parent_count] are as they were, and [m_parent_done_count] is a copy of
    [m_parent_count]. *)
Theorem reset_shallow (fuel : nat) (n : addr) (w : Work) (s : Sys) :
  heap s !! n = Some w →
  m_state w ≠ Running →
  ∃ s' w',
    reset (S fuel) false n s = Ret tt s' ∧
    trace s' = trace s ++ [EvState n Created] ∧
    (∀ m, m ≠ n → heap s' !! m = heap s !! m) ∧
    heap s' !! n = Some w' ∧
    m_state w' = Created ∧
    m_promise_done w' = false ∧
    m_is_done w' = true ∧
    m_children w' = m_children w ∧
    m_trigger_condition w' = m_trigger_condition w ∧
    m_worker w' = m_worker w ∧
    m_parent_count w' = m_parent_count w ∧
    m_parent_done_count w' = m_parent_count w ∧
    wait_for_done n s' = Block s' n (future_get n).
Proof.
  intros Hn Hrun. rewrite (reset_eq _ _ _ _ _ Hn) by done.
  eexists _, (reset_here w). split; [reflexivity|]. simpl.
  split; [done|]. split; [intros m Hm; by rewrite lookup_insert_ne|].
  split; [apply lookup_insert_eq|]. repeat (split; [done|]).
  erewrite wait_for_done_eq; [|simpl; apply lookup_insert_eq]. done.
Qed.

(** ** [reset] with recursion *)

Lemma reset_node_rel_refl w : reset_node_rel w w.
Proof. repeat split; auto. Qed.

Lemma reset_node_rel_trans w1 w2 w3 :
  reset_node_rel w1 w2 → reset_node_rel w2 w3 → reset_node_rel w1 w3.
Proof.
  intros (?&?&?&?&H12) (?&?&?&?&H23). repeat split; try congruence.
  destruct H23 as [->|?]; auto.
Qed.

Lemma reset_rel_refl s : reset_rel s s.
Proof. intros m. destruct (heap s !! m); [apply reset_node_rel_refl|done]. Qed.

Lemma reset_rel_trans s1 s2 s3 :
  reset_rel s1 s2 → reset_rel s2 s3 → reset_rel s1 s3.
Proof.
  intros H12 H23 m. specialize (H12 m). specialize (H23 m).
  destruct (heap s1 !! m), (heap s2 !! m), (heap s3 !! m); try done.
  by eapply reset_node_rel_trans.
Qed.

Lemma reset_rel_lookup s s' m w :
  reset_rel s s' → heap s !! m = Some w →
  ∃ w', heap s' !! m = Some w' ∧ reset_node_rel w w'.
Proof.
  intros Hrel Hm. specialize (Hrel m). rewrite Hm in Hrel.
  destruct (heap s' !! m) as [w'|]; [|done]. by exists w'.
Qed.

Lemma reset_rel_lookup_inv s s' m w' :
  reset_rel s s' → heap s' !! m = Some w' →
  ∃ w, heap s !! m = Some w ∧ reset_node_rel w w'.
Proof.
  intros Hrel Hm. specialize (Hrel m). rewrite Hm in Hrel.
  destruct (heap s !! m) as [w|]; [|done]. by exists w.
Qed.

Lemma reset_rel_child_of s s' n c :
  reset_rel s s' → child_of s n c ↔ child_of s' n c.
Proof.
  intros Hrel. split.
  - intros (w & Hn & Hc).
    destruct (reset_rel_lookup _ _ _ _ Hrel Hn) as (w' & Hn' & Hch & _).
    exists w'. by rewrite Hch.
  - intros (w' & Hn' & Hc).
    destruct (reset_rel_lookup_inv _ _ _ _ Hrel Hn') as (w & Hn & Hch & _).
    exists w. by rewrite <- Hch.
Qed.

Lemma reset_rel_renewed s s' m w :
  reset_rel s s' → heap s !! m = Some w → renewed w →
  ∃ w', heap s' !! m = Some w' ∧ renewed w'.
Proof.
  intros Hrel Hm Hw.
  destruct (reset_rel_lookup _ _ _ _ Hrel Hm) as (w' & Hm' & _ & _ & _ & _ & Hor).
  exists w'. split; [done|]. by destruct Hor as [->|?].
Qed.

Lemma reset_Ret_inv fuel deep n s s' :
  reset (S fuel) deep n s = Ret tt s' →
  ∃ w, heap s !! n = Some w ∧
       reset_children fuel deep (m_children w)
         (mkSys (<[n := reset_here w]> (heap s)) (trace s ++ [EvState n Created]))
       = Ret tt s'.
Proof.
  intros Hret. destruct (heap s !! n) as [w|] eqn:Hn.
  2: { simpl in Hret. by rewrite bind_eq, (load_None _ _ Hn) in Hret. }
  exists w. split; [done|].
  destruct (decide (m_state w = Running ∧
                    m_is_done w && negb (m_promise_done w) = true))
    as [[Hr Hb]|Hnb].
  { apply andb_prop in Hb as [Hv Hp%negb_true_iff].
    destruct (reset_blocks fuel deep n w s Hn Hr Hv Hp) as [k Hk]. congruence. }
  rewrite (reset_eq _ _ _ _ _ Hn) in Hret; [done|].
  intros Hr. destruct (m_is_done w && negb (m_promise_done w)); [|done].
  by destruct Hnb.
Qed.

Lemma reset_here_rel n w s :
  heap s !! n = Some w →
  reset_rel s (mkSys (<[n := reset_here w]> (heap s)) (trace s ++ [EvState n Created])).
Proof.
  intros Hn m. simpl. destruct (decide (n = m)) as [<-|Hne].
  - rewrite lookup_insert_eq, Hn. repeat split; auto. right. by repeat split.
  - rewrite lookup_insert_ne by done.
    destruct (heap s !! m); [apply reset_node_rel_refl|done].
Qed.

(** Each round of a loop that returns has returned, between two states
    related to the ends of the loop by any preorder the rounds respect. *)
Lemma for_each_Ret_elem {A} (R : Sys → Sys → Prop) (body : A → M unit) l :
  (∀ s, R s s) → (∀ s1 s2 s3, R s1 s2 → R s2 s3 → R s1 s3) →
  (∀ x s s', x ∈ l → body x s = Ret tt s' → R s s') →
  ∀ s s', for_each l body s = Ret tt s' →
    R s s' ∧
    ∀ x, x ∈ l → ∃ s1 s2, R s s1 ∧ body x s1 = Ret tt s2 ∧ R s2 s'.
Proof.
  intros Hrefl Htrans. induction l as [|y l IH]; intros Hbody s s'.
  - simpl. unfold ret. intros [= <-]. split; [done|].
    intros x Hx. by apply elem_of_nil in Hx.
  - cbn [for_each]. intros (u & s1 & H1 & H2)%bind_Ret_inv. destruct u.
    assert (Hy : R s s1) by (eapply Hbody; [by left|done]).
    destruct (IH (λ x t t' Hx, Hbody x t t' (list_elem_of_further _ _ _ Hx))
                 s1 s' H2) as [Hrest Helem].
    split; [by eapply Htrans|].
    intros x [->|Hx]%elem_of_cons.
    + exists s, s1. auto.
    + destruct (Helem x Hx) as (t1 & t2 & Ht1 & Ht & Ht2).
      exists t1, t2. split; [by eapply Htrans|done].
Qed.

Lemma reset_Ret_rel fuel : ∀ deep n s s',
  reset fuel deep n s = Ret tt s' →
  reset_rel s s' ∧ ∃ w', heap s' !! n = Some w' ∧ renewed w'.
Proof.
  induction fuel as [|fuel IH]; intros deep n s s' Hret; [done|].
  destruct (reset_Ret_inv _ _ _ _ _ Hret) as (w & Hn & Hch).
  set (s0 := mkSys _ _) in Hch.
  assert (H0 : reset_rel s s0) by (by apply reset_here_rel).
  assert (Hn0 : heap s0 !! n = Some (reset_here w)).
  { unfold s0; simpl. apply lookup_insert_eq. }
  assert (Hrest : reset_rel s0 s').
  { unfold reset_children in Hch. destruct deep.
    2: { unfold ret in Hch. injection Hch as <-. apply reset_rel_refl. }
    eapply (for_each_Ret_elem reset_rel); [apply reset_rel_refl|
      apply reset_rel_trans| |exact Hch].
    intros [c|] t t' _ Hb.
    - by apply (IH _ _ _ _ Hb).
    - unfold ret in Hb. injection Hb as <-. apply reset_rel_refl. }
  split; [by eapply reset_rel_trans|].
  by apply (reset_rel_renewed s0 s' n (reset_here w)).
Qed.

Lemma nsteps_subrel {A} (R1 R2 : relation A) L x y :
  (∀ a b, R1 a b → R2 a b) → nsteps R1 L x y → nsteps R2 L x y.
Proof. intros Hsub. induction 1; econstructor; eauto. Qed.

Lemma reset_deep_paths fuel : ∀ n s s',
  reset fuel true n s = Ret tt s' →
  ∀ L m, nsteps (child_of s) L n m →
    (L < fuel)%nat ∧ ∃ w', heap s' !! m = Some w' ∧ renewed w'.
Proof.
  induction fuel as [|fuel IH]; intros n s s' Hret L m Hpath; [done|].
  destruct (reset_Ret_rel _ _ _ _ _ Hret) as [Hrel Hn'].
  inversion Hpath as [|L' ? c ? Hedge Hrest]; subst.
  { split; [lia|done]. }
  destruct (reset_Ret_inv _ _ _ _ _ Hret) as (w & Hn & Hch).
  set (s0 := mkSys _ _) in Hch.
  assert (H0 : reset_rel s s0) by (by apply reset_here_rel).
  destruct Hedge as (w2 & Hn2 & Hc). assert (w2 = w) as -> by congruence.
  unfold reset_children in Hch.
  assert (Hbody : ∀ (x : WorkPtr) t t', x ∈ m_children w →
            match x with Some c' => reset fuel true c' | None => ret tt end t
              = Ret tt t' → reset_rel t t').
  { intros [c'|] t t' _ Hb.
    - by apply (reset_Ret_rel _ _ _ _ _ Hb).
    - unfold ret in Hb. injection Hb as <-. apply reset_rel_refl. }
  destruct (for_each_Ret_elem reset_rel _ _ reset_rel_refl reset_rel_trans
              Hbody _ _ Hch) as [_ Helem].
  destruct (Helem (Some c) Hc) as (s1 & s2 & H01 & Hc12 & H2').
  assert (Hs1 : reset_rel s s1) by (by eapply reset_rel_trans).
  destruct (IH c s1 s2 Hc12 L' m) as (Hlt & w' & Hm & Hw').
  { eapply nsteps_subrel; [|exact Hrest].
    intros a b Hab. by apply (reset_rel_child_of s s1). }
  split; [lia|]. by eapply reset_rel_renewed.
Qed.

Lemma reset_untouched fuel : ∀ deep n s s',
  reset fuel deep n s = Ret tt s' →
  ∀ m, (if deep then ¬ rtc (child_of s) n m else m ≠ n) →
  heap s' !! m = heap s !! m.
Proof.
  induction fuel as [|fuel IH]; intros deep n s s' Hret m Hm; [done|].
  destruct (reset_Ret_inv _ _ _ _ _ Hret) as (w & Hn & Hch).
  set (s0 := mkSys _ _) in Hch.
  assert (H0 : reset_rel s s0) by (by apply reset_here_rel).
  assert (Hne : m ≠ n).
  { destruct deep; [|done]. intros ->. by apply Hm. }
  assert (Hm0 : heap s0 !! m = heap s !! m).
  { unfold s0; simpl. by rewrite lookup_insert_ne. }
  unfold reset_children in Hch. destruct deep.
  2: { unfold ret in Hch. injection Hch as <-. done. }
  set (R := λ t t' : Sys,
         reset_rel t t' ∧ (reset_rel s0 t → heap t' !! m = heap t !! m)).
  assert (Hrefl : ∀ t, R t t).
  { intros t. split; [apply reset_rel_refl|done]. }
  assert (Htrans : ∀ t1 t2 t3, R t1 t2 → R t2 t3 → R t1 t3).
  { intros t1 t2 t3 [H12 E12] [H23 E23]. split; [by eapply reset_rel_trans|].
    intros H01. rewrite E23, E12; [done..|]. by eapply reset_rel_trans. }
  assert (Hbody : ∀ (x : WorkPtr) t t', x ∈ m_children w →
            match x with Some c => reset fuel true c | None => ret tt end t
              = Ret tt t' → R t t').
  { intros [c|] t t' Hc Hb.
    2: { unfold ret in Hb. injection Hb as <-. apply Hrefl. }
    split; [by apply (reset_Ret_rel _ _ _ _ _ Hb)|]. intros H0t.
    apply (IH _ _ _ _ Hb). intros Hcm. apply Hm.
    eapply rtc_l; [by exists w|].
    eapply rtc_subrel; [|exact Hcm]. intros a b Hab.
    eapply reset_rel_child_of; [|exact Hab]. by eapply reset_rel_trans. }
  destruct (for_each_Ret_elem R _ _ Hrefl Htrans Hbody _ _ Hch) as [[_ Hsame] _].
  rewrite Hsame; [done|apply reset_rel_refl].
Qed.

(** X8: a [reset( true )] that returns has renewed the node and every node
    that can be reached from it through children lists ([Created], promise
    without value, valid future) and has left every other object exactly as it
    was; on the way no children list, gate, worker or parent count changed;
    and no path of children from the node is as long as the recursion went
    deep. *)
Theorem deep_reset_renews_descendants (fuel : nat) (n : addr) (s s' : Sys) :
  reset fuel true n s = Ret tt s' →
  reset_rel s s' ∧
  (∀ m, rtc (child_of s) n m → ∃ w', heap s' !! m = Some w' ∧ renewed w') ∧
  (∀ m, ¬ rtc (child_of s) n m → heap s' !! m = heap s !! m) ∧
  (∀ L m, nsteps (child_of s) L n m → (L < fuel)%nat).
Proof.
  intros Hret. split; [by apply (reset_Ret_rel _ _ _ _ _ Hret)|].
  split; [|split].
  - intros m [L HL]%rtc_nsteps_1.
    by apply (reset_deep_paths _ _ _ _ Hret L m).
  - intros m Hm. by apply (reset_untouched _ _ _ _ _ Hret).
  - intros L m HL. by apply (reset_deep_paths _ _ _ _ Hret L m).
Qed.

Lemma nsteps_repeat {A} (R : relation A) L x k :
  nsteps R L x x → nsteps R (k * L) x x.
Proof.
  intros HL. induction k as [|k IH]; [constructor|].
  simpl. by eapply nsteps_trans.
Qed.

(** X9: on a node that lies on a cycle of children lists, [reset( true )]
    does not return, however deep the recursion is allowed to go: the code
    has no protection against cycles. *)
Theorem deep_reset_never_returns_on_cycle (n : addr) (s : Sys) :
  tc (child_of s) n n →
  ∀ fuel s', reset fuel true n s ≠ Ret tt s'.
Proof.
  intros (L & HL & Hcycle)%tc_nsteps fuel s' Hret.
  pose proof (nsteps_repeat _ _ _ fuel Hcycle) as Hlong.
  destruct (reset_deep_paths _ _ _ _ Hret _ _ Hlong) as [Hlt _]. nia.
Qed.

Lemma ptr_allocated_rel s s' p :
  reset_rel s s' → ptr_allocated s p → ptr_allocated s' p.
Proof.
  intros Hrel. destruct p as [c|]; [|done]. simpl. intros [w Hc].
  destruct (reset_rel_lookup _ _ _ _ Hrel Hc) as (w' & Hc' & _). by exists w'.
Qed.

Lemma calm_rel s s' : reset_rel s s' → calm s → calm s'.
Proof.
  intros Hrel Hcalm m w' Hm'. simpl.
  destruct (reset_rel_lookup_inv _ _ _ _ Hrel Hm') as (w & Hm & _ & _ & _ & _ & Hor).
  destruct Hor as [->|(Hst & _)].
  - by apply (Hcalm m w).
  - by rewrite Hst.
Qed.

Lemma closed_rel s s' : reset_rel s s' → closed s → closed s'.
Proof.
  intros Hrel Hclosed m w' Hm'. simpl.
  destruct (reset_rel_lookup_inv _ _ _ _ Hrel Hm') as (w & Hm & Hch & _).
  rewrite Hch. eapply Forall_impl; [exact (Hclosed m w Hm)|].
  intros p. by apply ptr_allocated_rel.
Qed.

Lemma ranked_rel rank s s' : reset_rel s s' → ranked rank s → ranked rank s'.
Proof.
  intros Hrel Hranked m w' Hm'. simpl.
  destruct (reset_rel_lookup_inv _ _ _ _ Hrel Hm') as (w & Hm & Hch & _).
  rewrite Hch. exact (Hranked m w Hm).
Qed.

(** X10: where the graph has no cycle (some rank falls along every edge),
    every child pointer is null or valid and no node is [Running], [reset]
    returns, with or without recursion, once the recursion may go deeper
    than the rank of the node. *)
Theorem reset_returns_without_cycle
    (rank : addr → nat) (deep : bool) (fuel : nat) (n : addr) (s : Sys) :
  ranked rank s → closed s → calm s →
  is_Some (heap s !! n) →
  (rank n < fuel)%nat →
  ∃ s', reset fuel deep n s = Ret tt s'.
Proof.
  revert n s. induction fuel as [|fuel IH];
    intros n s Hranked Hclosed Hcalm [w Hn] Hlt; [lia|].
  rewrite (reset_eq _ _ _ _ _ Hn) by (intros Hr; by destruct (Hcalm n w Hn)).
  set (s0 := mkSys _ _).
  assert (H0 : reset_rel s s0) by (by apply reset_here_rel).
  unfold reset_children. destruct deep; [|by eexists].
  assert (Hgood : ranked rank s0 ∧ closed s0 ∧ calm s0).
  { split; [|split].
    - by apply (ranked_rel rank s).
    - by apply (closed_rel s).
    - by apply (calm_rel s). }
  assert (Hcs : Forall (λ p, ptr_allocated s0 p ∧ ptr_below rank n p)
                       (m_children w)).
  { apply Forall_and. split.
    - eapply Forall_impl; [exact (Hclosed n w Hn)|].
      intros p. by apply ptr_allocated_rel.
    - exact (Hranked n w Hn). }
  clearbody s0. clear H0 Hn Hranked Hclosed Hcalm s.
  revert s0 Hgood Hcs. induction (m_children w) as [|p cs IHcs];
    intros t (Hr & Hc & Hm) Hcs; [by eexists|].
  apply Forall_cons in Hcs as [[Hp Hbelow] Hcs]. cbn [for_each].
  assert (Hstep : ∃ t1, match p with
                        | Some c => reset fuel true c
                        | None => ret tt
                        end t = Ret tt t1 ∧ reset_rel t t1).
  { destruct p as [c|].
    - destruct (IH c t) as [t1 Ht1]; try done. { simpl in Hbelow. lia. }
      exists t1. split; [done|]. by apply (reset_Ret_rel _ _ _ _ _ Ht1).
    - exists t. split; [done|]. apply reset_rel_refl. }
  destruct Hstep as (t1 & Ht1 & Hrel). rewrite bind_eq, Ht1. simpl.
  apply IHcs.
  - split; [|split].
    + by apply (ranked_rel rank t).
    + by apply (closed_rel t).
    + by apply (calm_rel t).
  - eapply Forall_impl; [exact Hcs|]. intros q [Hq ?].
    split; [|done]. by eapply ptr_allocated_rel.
Qed.

(** ** The life cycle over all reachable states *)

Lemma reset_unfold fuel deep n :
  reset (S fuel) deep n =
    (do w <- load n;
     (if decide (m_state w = Running) then wait_for_done n else ret tt) >>
     reset_rest fuel deep n).
Proof. reflexivity. Qed.

Lemma reset_rest_eq fuel deep n w s :
  heap s !! n = Some w →
  reset_rest fuel deep n s =
    reset_children fuel deep (m_children w)
      (mkSys (<[n := reset_here w]> (heap s)) (trace s ++ [EvState n Created])).
Proof.
  intros Hn. unfold reset_rest, reset_children. mrun Hn.
  destruct deep; [|done]. by mrun Hn.
Qed.

Lemma step_inv_gen (I : Sys → Prop) cfg cfg' :
  (∀ c s, I s → holds I (run_call c s)) →
  config_inv I cfg → step cfg cfg' → config_inv I cfg'.
Proof.
  intros Hcall [Hs Hps] Hstep.
  destruct Hstep as [c cfg cfg' Hset|i n k cfg cfg' Hi Hp Hset].
  - eapply settle_inv; [|exact Hps|exact Hset]. by apply Hcall.
  - eapply settle_inv; [| |exact Hset].
    + eapply (Forall_lookup_1 _ _ _ _ Hps Hi); done.
    + by apply Forall_delete.
Qed.

Lemma reachable_inv_gen (I : Sys → Prop) cfg :
  I empty_sys →
  (∀ c s, I s → holds I (run_call c s)) →
  reachable cfg → config_inv I cfg.
Proof.
  intros Hinit Hcall. unfold reachable. revert cfg. apply rtc_ind_r.
  - split; [done|by constructor].
  - intros y z _ Hstep Hy. by eapply step_inv_gen.
Qed.

Lemma lifecycle_ok_mono n tr evs w :
  lifecycle_ok n tr w → lifecycle_ok n (tr ++ evs) w.
Proof.
  intros [H1 H2]. split; [done|]. intros Hr. apply elem_of_app. left. auto.
Qed.

Lemma lifecycle_emit e s : lifecycle_inv s → holds lifecycle_inv (emit e s).
Proof. intros Hs n w Hn. simpl in *. by apply lifecycle_ok_mono, Hs. Qed.

Lemma lifecycle_modify_other n f s :
  lifecycle_inv s →
  (∀ w, m_promise_done (f w) = m_promise_done w ∧ m_state (f w) = m_state w) →
  holds lifecycle_inv (modify n f s).
Proof.
  intros Hs Hf. unfold modify. destruct (heap s !! n) as [w|] eqn:Hn; [|done].
  intros m v. simpl. destruct (decide (n = m)) as [->|Hne].
  - rewrite lookup_insert_eq. intros [= <-]. destruct (Hf w) as [Hp Hst].
    unfold lifecycle_ok. rewrite Hp, Hst. by apply Hs.
  - rewrite lookup_insert_ne by done. apply Hs.
Qed.

Lemma lifecycle_insert n w' evs s :
  lifecycle_inv s → lifecycle_ok n (trace s ++ evs) w' →
  lifecycle_inv (mkSys (<[n := w']> (heap s)) (trace s ++ evs)).
Proof.
  intros Hs Hw' m v. simpl. destruct (decide (n = m)) as [->|Hne].
  - rewrite lookup_insert_eq. by intros [= <-].
  - rewrite lookup_insert_ne by done. intros Hm.
    by apply lifecycle_ok_mono, Hs.
Qed.

Lemma lifecycle_trigger ps n s :
  lifecycle_inv s → holds lifecycle_inv (trigger ps n s).
Proof.
  intros Hs. destruct (heap s !! n) as [w|] eqn:Hn.
  2: { by rewrite (trigger_unallocated _ _ _ Hn). }
  destruct (Hs n w Hn) as [Hiff Hrun].
  assert (Hcd : m_promise_done (count_down w) = m_promise_done w ∧
                m_state (count_down w) = m_state w).
  { unfold count_down. by destruct (decide (0 < m_parent_count w)). }
  destruct Hcd as [Hcp Hcs].
  destruct (trigger_cases ps n w s Hn) as [[-> _]|(Hst & -> & Hcase)]; [done|].
  destruct (run_now (count_down w)); rewrite Hcase; simpl.
  - apply lifecycle_insert; [done|]. split; simpl.
    + rewrite Hcp, Hiff, Hst. split; [intros [?|?]; done|intros [?|?]; done].
    + intros _. apply elem_of_app. right. right. by left.
  - rewrite <- (app_nil_r (trace s)). apply lifecycle_insert; [done|].
    rewrite app_nil_r. split.
    + by rewrite Hcp, Hcs.
    + rewrite Hcs. done.
Qed.

Lemma lifecycle_register_child child n s :
  lifecycle_inv s → holds lifecycle_inv (register_child child n s).
Proof.
  intros Hs. unfold register_child. rewrite bind_eq.
  apply holds_bind; [by apply lifecycle_modify_other|]. intros _ s1 Hs1.
  rewrite bind_eq.
  apply holds_bind; [by apply lifecycle_modify_other|]. intros _ s2 Hs2.
  by apply lifecycle_modify_other.
Qed.

Lemma lifecycle_wire g ps cs s :
  lifecycle_inv s → holds lifecycle_inv (wire g ps cs s).
Proof.
  revert s. unfold wire. apply holds_for_each. intros p.
  apply holds_for_each. intros c s Hs. rewrite bind_eq.
  apply holds_bind.
  - rewrite bind_eq. destruct c as [c|]; [|done]. simpl.
    by apply lifecycle_modify_other.
  - intros _ s1 Hs1. rewrite bind_eq. destruct p as [p|]; [|done]. simpl.
    by apply lifecycle_register_child.
Qed.

Lemma lifecycle_make_shared f s :
  lifecycle_inv s → holds lifecycle_inv (make_shared f s).
Proof.
  intros Hs n w. simpl. destruct (decide (fresh (dom (heap s)) = n)) as [->|Hne].
  - rewrite lookup_insert_eq. intros [= <-]. split; simpl; [|done].
    split; [done|intros [?|?]; done].
  - rewrite lookup_insert_ne by done. apply Hs.
Qed.

Lemma lifecycle_future_get n s :
  lifecycle_inv s → holds lifecycle_inv (future_get n s).
Proof.
  intros Hs. unfold future_get. by apply lifecycle_modify_other.
Qed.

Lemma lifecycle_wait_for_done n s :
  lifecycle_inv s → holds lifecycle_inv (wait_for_done n s).
Proof.
  intros Hs. unfold wait_for_done. rewrite bind_eq.
  apply holds_bind; [by apply holds_load|]. intros w s1 Hs1.
  destruct (m_is_done w && negb (m_promise_done w)); [|done].
  split; [done|]. intros s' Hs' _. by apply lifecycle_future_get.
Qed.

Lemma lifecycle_fan_out n cs : ∀ s,
  lifecycle_inv s → holds lifecycle_inv (for_each cs (notify_child n) s).
Proof.
  apply holds_for_each. intros [c|] s Hs; [|done].
  unfold notify_child. rewrite bind_eq.
  apply holds_bind; [by apply holds_load|]. intros me s1 Hs1.
  rewrite bind_eq. apply holds_bind; [by apply lifecycle_emit|].
  intros _ s2. apply lifecycle_trigger.
Qed.

Lemma lifecycle_done c n s :
  lifecycle_inv s → holds lifecycle_inv (done (m_control c) n s).
Proof.
  intros Hs. destruct (heap s !! n) as [w|] eqn:Hn.
  2: { rewrite done_unfold. unfold store_state. rewrite !bind_eq.
       unfold modify at 1. by rewrite Hn. }
  assert (Hterm : m_control c = Completed ∨ m_control c = Failed).
  { destruct c; auto. }
  destruct (m_promise_done w) eqn:Hp.
  - rewrite (done_satisfied _ _ _ _ Hn Hp). simpl.
    apply lifecycle_insert; [done|]. split; simpl.
    + by rewrite Hp.
    + intros Hr. rewrite Hr in Hterm. by destruct Hterm.
  - rewrite (done_fresh _ _ _ _ Hn Hp). apply lifecycle_fan_out.
    apply lifecycle_insert; [done|]. split; simpl.
    + done.
    + intros Hr. rewrite Hr in Hterm. by destruct Hterm.
Qed.

Lemma lifecycle_reset fuel : ∀ deep n s,
  lifecycle_inv s → holds lifecycle_inv (reset fuel deep n s).
Proof.
  induction fuel as [|fuel IH]; intros deep n s Hs; [done|].
  assert (Hrest : ∀ t, lifecycle_inv t →
                       holds lifecycle_inv (reset_rest fuel deep n t)).
  { intros t Ht. destruct (heap t !! n) as [w|] eqn:Hn.
    2: { unfold reset_rest, store_state. rewrite !bind_eq.
         unfold modify at 1. by rewrite Hn. }
    rewrite (reset_rest_eq _ _ _ _ _ Hn). unfold reset_children.
    assert (H0 : lifecycle_inv
              (mkSys (<[n := reset_here w]> (heap t))
                     (trace t ++ [EvState n Created]))).
    { apply lifecycle_insert; [done|]. split; simpl; [|done].
      split; [done|intros [?|?]; done]. }
    destruct deep; [|done]. revert H0. generalize (mkSys (<[n := reset_here w]> (heap t))
                     (trace t ++ [EvState n Created])).
    apply holds_for_each. intros [c|] t1 Ht1; [|done]. by apply IH. }
  rewrite reset_unfold, bind_eq.
  apply holds_bind; [by apply holds_load|]. intros w s1 Hs1.
  rewrite bind_eq. apply holds_bind.
  { destruct (decide (m_state w = Running)); [|done].
    by apply lifecycle_wait_for_done. }
  intros _ s2. apply Hrest.
Qed.

Lemma lifecycle_run_call c s :
  lifecycle_inv s → holds lifecycle_inv (run_call c s).
Proof.
  intros Hs. destruct c; cbn [run_call].
  - rewrite bind_eq. apply holds_bind; [by apply lifecycle_make_shared|].
    by intros _ s'.
  - by apply lifecycle_wire.
  - by apply lifecycle_wire.
  - by apply lifecycle_register_child.
  - by apply lifecycle_modify_other.
  - by apply lifecycle_trigger.
  - by apply lifecycle_reset.
  - by apply lifecycle_wait_for_done.
  - by apply lifecycle_done.
Qed.

Lemma reachable_node_facts cfg n w :
  reachable cfg →
  heap (sys cfg) !! n = Some w →
  (m_promise_done w = true ↔ m_state w = Completed ∨ m_state w = Failed) ∧
  (m_state w = Running → EvSpawn n ∈ trace (sys cfg)) ∧
  (m_state w = Created ∨ m_state w = Running → m_is_done w = true).
Proof.
  intros Hreach Hn.
  destruct (reachable_inv_gen lifecycle_inv cfg) as [Hlife _];
    [done|apply lifecycle_run_call|done|].
  destruct (reachable_inv _ Hreach) as [Hsig _].
  destruct (Hlife _ _ Hn) as [Hiff Hrun]. destruct (Hsig _ _ Hn) as [Hvalid _].
  split; [done|]. split; [done|]. intros Hst.
  destruct (m_is_done w) eqn:Hv; [done|].
  apply Hiff in Hvalid; [|done].
  destruct Hst as [Hst|Hst], Hvalid as [?|?]; congruence.
Qed.

(** X11: in every state the program can reach, the promise of a node holds a
    value exactly when the node is [Completed] or [Failed]; a worker thread
    has been started for every node that is [Running]; and a node that is
    [Created] or [Running] has a valid future. *)
Theorem lifecycle_of_reachable_states (cfg : Config) (n : addr) (w : Work) :
  reachable cfg →
  heap (sys cfg) !! n = Some w →
  (m_promise_done w = true ↔ m_state w = Completed ∨ m_state w = Failed) ∧
  (m_state w = Running → EvSpawn n ∈ trace (sys cfg)) ∧
  (m_state w = Created ∨ m_state w = Running → m_is_done w = true).
Proof. apply reachable_node_facts. Qed.


(** ** A root node *)


(** ** The program of [main.cpp] *)

Lemma turn_successor t w w' :
  map_Forall (λ n _, n ∈ main_nodes) (heap (w_sys w)) →
  turn t w = Some w' → w' ∈ successors w.
Proof.
  intros Hdom Ht. unfold successors. apply list_elem_of_omap.
  exists t. split; [|done]. destruct t as [|n]; [by left|].
  right. apply list_elem_of_fmap_2.
  simpl in Ht. unfold worker_turn in Ht. case_bool_decide as Hc; [|done].
  destruct Hc as [_ Hr]. unfold field in Hr.
  destruct (heap (w_sys w) !! n) as [x|] eqn:Hn; [|done].
  by apply (Hdom n x).
Qed.

Lemma explore_sound fuel w ts w' :
  explore fuel w = true → run_turns ts w = Some w' →
  main_ok w' ∧ (length ts ≤ fuel)%nat.
Proof.
  revert w ts. induction fuel as [|fuel IH]; intros w ts He Hr;
    simpl in He; apply andb_true_iff in He as [Hok He];
    apply bool_decide_eq_true in Hok.
  - destruct ts as [|t ts]; simpl in Hr.
    + injection Hr as <-. split; [done|simpl; lia].
    + destruct (turn t w) as [w1|] eqn:Ht; [|done].
      apply turn_successor in Ht; [|apply Hok].
      destruct (successors w); [by apply elem_of_nil in Ht|done].
  - destruct ts as [|t ts]; simpl in Hr.
    + injection Hr as <-. split; [done|simpl; lia].
    + destruct (turn t w) as [w1|] eqn:Ht; [|done].
      apply turn_successor in Ht; [|apply Hok].
      rewrite forallb_forall in He.
      destruct (IH w1 ts) as [? ?]; [|done|].
      { apply He. by apply list_elem_of_In. }
      split; [done|simpl; lia].
Qed.

(** X14: [main] of main.cpp, with the threads taking turns and each call of a
    worker one step (the calls do not overlap).  [main] builds the nodes W0
    to W3 at the addresses 1 to 4 and [W0->trigger()] returns.  After that,
    whichever thread takes each turn: no schedule has more than seven turns;
    no worker is started twice; as long as [main] has not returned from its
    second [wait_for_done] some thread can take a turn, so [main] returns in
    every schedule; and when it returns W0 and W3 are [Completed] and so is
    one of W1 and W2.  A first [wait_for_done] called before any worker has
    run parks [main].  [main] can return while the worker of W2 has not
    finished, W3 having been started by W1 alone.  When the notifications of
    W1 and W2 overlap in [trigger] of W3, the worker of W3 is started twice
    and its second notification raises [std::future_error]. *)
Theorem main_returns_in_every_schedule :
  (∃ s, main_graph empty_sys = Ret (1, 2, 3, 4)%positive s) ∧
  main_start empty_sys = Ret tt (w_sys main_world) ∧
  (∀ ts w,
     run_turns ts main_world = Some w →
     (length ts ≤ 7)%nat ∧
     Forall (λ n, (spawns n (trace (w_sys w)) ≤ 1)%nat) main_nodes ∧
     (w_pc w = AtReturn →
      field m_state 1%positive (w_sys w) = Some Completed ∧
      field m_state 4%positive (w_sys w) = Some Completed ∧
      (field m_state 2%positive (w_sys w) = Some Completed ∨
       field m_state 3%positive (w_sys w) = Some Completed)) ∧
     (w_pc w ≠ AtReturn → ∃ t w', turn t w = Some w')) ∧
  turn MainTurn main_world = Some (mkWorld (w_sys main_world) InGet1) ∧
  (∃ w,
     run_turns [WorkerTurn 1%positive; WorkerTurn 2%positive;
                WorkerTurn 4%positive; MainTurn; MainTurn]
       main_world = Some w ∧
     w_pc w = AtReturn ∧
     field m_state 3%positive (w_sys w) = Some Running) ∧
  (∃ s,
     main_overlapping (w_sys main_world) = Throw s ∧
     spawns 4%positive (trace s) = 2%nat).
Proof.
  split; [eexists; vm_compute; reflexivity|].
  split; [vm_compute; reflexivity|].
  split; [|split; [|split]].
  - intros ts w Hr.
    assert (He : explore 7 main_world = true) by (vm_compute; reflexivity).
    destruct (explore_sound _ _ _ _ He Hr)
      as [(_ & Hsp & _ & Hret & Hnext) Hlen].
    split; [done|]. split; [done|]. split; [done|].
    intros Hpc. specialize (Hnext Hpc).
    destruct (successors w) as [|w' ws] eqn:Hs; [simpl in Hnext; lia|].
    assert (Hw' : w' ∈ successors w) by (rewrite Hs; left).
    apply list_elem_of_omap in Hw' as (t & _ & Ht). by exists t, w'.
  - vm_compute. reflexivity.
  - eexists. split; [vm_compute; reflexivity|]. by vm_compute.
  - eexists. split; [vm_compute; reflexivity|]. by vm_compute.
Qed.

(** ** Instances of the further properties *)

(** Two [Completed] signals for a fresh node, one after the other and
    overlapping. *)
Lemma two_signals_for_a_fresh_node :
  (∃ s' evs,
     trigger_each [Completed; Completed] 1%positive two_nodes = Ret tt s' ∧
     trace s' = trace two_nodes ++ evs ∧
     (spawns 1%positive evs ≤ 1)%nat ∧
     (m_state (Work_new [set_completed]) ≠ Created → s' = two_nodes) ∧
     (m_state (Work_new [set_completed]) = Created →
      m_trigger_condition (Work_new [set_completed]) = OR →
      spawns 1%positive evs =
        if decide (Completed ∈ [Completed; Completed]) then 1%nat else 0%nat)) ∧
  (∀ ps t, trigger ps 1%positive t =
           (do b <- trigger_test 1%positive;
            when b (trigger_act ps 1%positive)) t) ∧
  (m_state (Work_new [set_completed]) = Created →
   m_parent_count (Work_new [set_completed]) = 0 →
   trigger_overlapping Completed Completed 1%positive two_nodes =
     Ret tt (mkSys (<[1%positive := with_state Running (Work_new [set_completed])]>
                      (heap two_nodes))
                   (trace two_nodes ++
                    [EvState 1%positive Running; EvSpawn 1%positive;
                     EvState 1%positive Running; EvSpawn 1%positive])) ∧
   spawns 1%positive
     [EvState 1%positive Running; EvSpawn 1%positive;
      EvState 1%positive Running; EvSpawn 1%positive] = 2%nat).
Proof.
  apply (trigger_launches_once_unless_calls_overlap [Completed; Completed]
           1%positive (Work_new [set_completed]) two_nodes).
  vm_compute. reflexivity.
Defined.

(** Node 2 wired under node 1. *)
Lemma wiring_one_pair :
  ∃ s',
    wire AND (Some <$> [1%positive]) (Some <$> [2%positive]) two_nodes =
      Ret tt s' ∧
    trace s' = trace two_nodes ∧
    ∀ m w,
      heap two_nodes !! m = Some w → m_parent_count w < SIZE_MODULUS →
      ∃ w',
        heap s' !! m = Some w' ∧
        m_children w' =
          m_children w ++
          concat (replicate (count_in m [1%positive]) (Some <$> [2%positive])) ∧
        m_parent_count w' =
          (m_parent_count w +
           N.of_nat (count_in m [1%positive] * length [2%positive]))
            mod SIZE_MODULUS ∧
        m_trigger_condition w' =
          (if decide ([1%positive] ≠ [] ∧ m ∈ [2%positive])
           then AND else m_trigger_condition w) ∧
        m_state w' = m_state w ∧ m_worker w' = m_worker w ∧
        m_promise_done w' = m_promise_done w ∧ m_is_done w' = m_is_done w ∧
        (m ∉ [1%positive] → m ∉ [2%positive] → w' = w).
Proof.
  apply (wiring_is_a_cartesian_product AND [1%positive] [2%positive] two_nodes).
  - by_compute.
  - by_compute.
Defined.

(** The root of the [ALL]-wired chain, running, reports failure. *)
Lemma chain_root_fails :
  done (m_control set_failed) 1%positive
    (after (trigger Completed 1%positive) (after chain_all empty_sys)) =
    Ret tt
      (mkSys
         (<[1%positive :=
              finalized Failed
                (mkWork Running [Some 2%positive] [set_completed] false true 0 1 OR)]>
            (heap (after (trigger Completed 1%positive)
                         (after chain_all empty_sys))))
         (trace (after (trigger Completed 1%positive)
                       (after chain_all empty_sys)) ++
          [EvState 1%positive Failed; EvSetValue 1%positive] ++
          failed_calls
            (m_children
               (mkWork Running [Some 2%positive] [set_completed] false true 0 1 OR)))).
Proof.
  apply (failed_node_launches_no_child 1%positive
           (mkWork Running [Some 2%positive] [set_completed] false true 0 1 OR)
           (after (trigger Completed 1%positive) (after chain_all empty_sys))).
  - vm_compute. reflexivity.
  - reflexivity.
  - intros c Hc. simpl in Hc. apply list_elem_of_singleton in Hc.
    injection Hc as ->. by_compute.
Defined.

(** [reset] on a root that has completed. *)
Lemma reset_completed_root :
  ∃ s' w',
    reset 1 false 1%positive (sys root_completed) = Ret tt s' ∧
    trace s' = trace (sys root_completed) ++ [EvState 1%positive Created] ∧
    (∀ m, m ≠ 1%positive → heap s' !! m = heap (sys root_completed) !! m) ∧
    heap s' !! 1%positive = Some w' ∧
    m_state w' = Created ∧
    m_promise_done w' = false ∧
    m_is_done w' = true ∧
    m_children w' =
      m_children (mkWork Completed [] [set_completed] true true 0 0 OR) ∧
    m_trigger_condition w' =
      m_trigger_condition (mkWork Completed [] [set_completed] true true 0 0 OR) ∧
    m_worker w' =
      m_worker (mkWork Completed [] [set_completed] true true 0 0 OR) ∧
    m_parent_count w' =
      m_parent_count (mkWork Completed [] [set_completed] true true 0 0 OR) ∧
    m_parent_done_count w' =
      m_parent_count (mkWork Completed [] [set_completed] true true 0 0 OR) ∧
    wait_for_done 1%positive s' = Block s' 1%positive (future_get 1%positive).
Proof.
  apply (reset_shallow 0 1%positive
           (mkWork Completed [] [set_completed] true true 0 0 OR)
           (sys root_completed)).
  - vm_compute. reflexivity.
  - discriminate.
Defined.

(** [reset( true )] on the root of the chain. *)
Lemma deep_reset_of_chain :
  reset_rel (after chain_all empty_sys)
            (after (reset 3 true 1%positive) (after chain_all empty_sys)) ∧
  (∀ m, rtc (child_of (after chain_all empty_sys)) 1%positive m →
        ∃ w', heap (after (reset 3 true 1%positive)
                          (after chain_all empty_sys)) !! m = Some w' ∧
              renewed w') ∧
  (∀ m, ¬ rtc (child_of (after chain_all empty_sys)) 1%positive m →
        heap (after (reset 3 true 1%positive) (after chain_all empty_sys)) !! m
        = heap (after chain_all empty_sys) !! m) ∧
  (∀ L m, nsteps (child_of (after chain_all empty_sys)) L 1%positive m →
          (L < 3)%nat).
Proof.
  apply (deep_reset_renews_descendants 3 1%positive
           (after chain_all empty_sys)
           (after (reset 3 true 1%positive) (after chain_all empty_sys))).
  vm_compute. reflexivity.
Defined.

(** [reset( true )] on a node that is its own child. *)
Lemma deep_reset_of_self_loop :
  reset 100 true 1%positive self_loop ≠ Ret tt self_loop.
Proof.
  refine (deep_reset_never_returns_on_cycle 1%positive self_loop _
            100%nat self_loop).
  apply tc_once.
  exists (registered (Some 1%positive) (Work_new [set_completed])).
  split; [vm_compute; reflexivity|]. simpl. by left.
Defined.

(** [reset( true )] on the root of the chain returns. *)
Lemma deep_reset_of_chain_returns :
  ∃ s', reset 3 true 1%positive (after chain_all empty_sys) = Ret tt s'.
Proof.
  apply (reset_returns_without_cycle (λ a, 3 - Pos.to_nat a)%nat true 3
           1%positive (after chain_all empty_sys)).
  - by_compute.
  - by_compute.
  - by_compute.
  - by_compute.
  - vm_compute. lia.
Defined.

(** The life cycle facts at a root that has completed. *)
Lemma lifecycle_of_completed_root :
  (m_promise_done (mkWork Completed [] [set_completed] true true 0 0 OR) = true ↔
   m_state (mkWork Completed [] [set_completed] true true 0 0 OR) = Completed ∨
   m_state (mkWork Completed [] [set_completed] true true 0 0 OR) = Failed) ∧
  (m_state (mkWork Completed [] [set_completed] true true 0 0 OR) = Running →
   EvSpawn 1%positive ∈ trace (sys root_completed)) ∧
  (m_state (mkWork Completed [] [set_completed] true true 0 0 OR) = Created ∨
   m_state (mkWork Completed [] [set_completed] true true 0 0 OR) = Running →
   m_is_done (mkWork Completed [] [set_completed] true true 0 0 OR) = true).
Proof.
  apply (lifecycle_of_reachable_states root_completed 1%positive
           (mkWork Completed [] [set_completed] true true 0 0 OR)).
  - unfold reachable.
    eapply rtc_l; [by apply (step_call (CallNew [set_completed]))|].
    eapply rtc_l; [by apply (step_call (CallTrigger Completed 1%positive))|].
    eapply rtc_l; [by apply (step_call (CallControl set_completed 1%positive))|].
    by vm_compute.
  - vm_compute. reflexivity.
Defined.


